(** * cmake_config_tool/app.py: a verification model

    The Flask application [app.py] scrapes [option(...)] declarations out of
    a CMakeLists.txt with a regular expression, keeps the chosen values in a
    YAML file and drives [cmake] in a scratch build directory.

    The development follows the source top-down:
    - [Text]      Python [str] values as lists of Unicode code points;
    - [Regex]     the pattern of [read_cmake_options] with the backtracking
                  semantics of [re], and [re.finditer];
    - [Dict]      insertion-ordered dictionaries;
    - [Scanner]   the loop of [read_cmake_options];
    - [Os]        a file system, exceptions, the state-and-exception monad
                  in which the handlers run, and the host: environment,
                  child processes, PyYAML;
    - [App]       the functions and HTTP handlers of app.py;
    - [Layout]    option declarations as the specification describes them;
    - [Handlers]  the five handlers as one family, and what the
                  specification says of their results;
    - [Demo]      a small machine on which the model runs;
    - [More]      what the further properties of the handlers speak of;
    - then the properties, component by component. *)

From Stdlib Require Import List Bool Arith NArith ZArith String Ascii Lia.
Import ListNotations.

Set Implicit Arguments.

(* ================================================================= *)
(** ** Text *)

Module Text.

(** A Python [str] is a sequence of Unicode code points. *)
Definition char := N.
Definition text := list char.

(** Code points of an ASCII literal of the source. *)
Definition cps (s : string) : text :=
  map N_of_ascii (list_ascii_of_string s).

Definition dquote : char := 34%N.     (* the double quote character *)
Definition newline : char := 10%N.

Fixpoint list_eqb {A} (eqb : A -> A -> bool) (l1 l2 : list A) : bool :=
  match l1, l2 with
  | [], [] => true
  | a :: l1', b :: l2' => eqb a b && list_eqb eqb l1' l2'
  | _, _ => false
  end.

(** [==] on [str]. *)
Definition text_eqb : text -> text -> bool := list_eqb N.eqb.

(** The two character tables of CPython's Unicode database that [re]
    consults for [\w] and [\s] on [str] patterns: [Py_UNICODE_ISALNUM]
    and [Py_UNICODE_ISSPACE].  They belong to the interpreter, not to
    the application, and are taken as given. *)
Class Unicode := {
  isalnum : char -> bool;
  isspace : char -> bool
}.

(** What the scanner's correctness relies on: no white space is
    alphanumeric, and the underscore, the double quote and the closing
    parenthesis are classified the way every Unicode version does. *)
Class UnicodeLaws (U : Unicode) : Prop := {
  space_not_alnum : forall c, isspace c = true -> isalnum c = false;
  underscore_not_space : isspace 95%N = false;
  dquote_not_space : isspace dquote = false;
  rparen_not_alnum : isalnum 41%N = false
}.

(** The tables on the ASCII range, as CPython has them: letters and
    digits; TAB, LF, VT, FF, CR, the separators 0x1C-0x1F and the blank.
    Code points from 128 on are put in neither class, so this instance
    stands for the interpreter's tables on ASCII text only. *)
Definition in_range (lo hi c : N) : bool := (lo <=? c)%N && (c <=? hi)%N.

Definition ascii_tables : Unicode := {|
  isalnum c := in_range 48 57 c || in_range 65 90 c || in_range 97 122 c;
  isspace c := in_range 9 13 c || in_range 28 32 c
|}.

End Text.
Import Text.

(* ================================================================= *)
(** ** The regular expression of [read_cmake_options]

    [option_pattern]: the literal [option(], a group [\w+], [\s+], a double
    quote, a group of one or more characters other than the double quote,
    a double quote, [\s+], a group [\w+] and the literal [)]. *)

Module Regex.
Section WithTables.
Context {U : Unicode}.

(** [\w]: alphanumeric or underscore.  [\s]: white space.  The negated
    class of the description: any character but the double quote, line
    breaks included. *)
Definition is_word (c : char) : bool := isalnum c || (c =? 95)%N.
Definition is_space (c : char) : bool := isspace c.
Definition not_dquote (c : char) : bool := negb (c =? dquote)%N.

(** A literal piece of the pattern: the input must start with it. *)
Fixpoint literal (lit s : text) : option text :=
  match lit, s with
  | [], _ => Some s
  | a :: lit', b :: s' => if (a =? b)%N then literal lit' s' else None
  | _ :: _, [] => None
  end.

(** [X+] for a character class [X], greedy with backtracking: the ways of
    splitting the input after a non-empty run of [X], in the order in
    which the engine tries them, longest run first. *)
Fixpoint plus (cls : char -> bool) (s : text) : list (text * text) :=
  match s with
  | [] => []
  | c :: s' =>
      if cls c
      then map (fun tr => (c :: fst tr, snd tr)) (plus cls s') ++ [([c], s')]
      else []
  end.

(** Backtracking: the first alternative for which the rest of the
    pattern succeeds. *)
Fixpoint first_success {A B} (k : A -> option B) (alts : list A) : option B :=
  match alts with
  | [] => None
  | a :: alts' =>
      match k a with
      | Some b => Some b
      | None => first_success k alts'
      end
  end.

(** A match object: the three groups. *)
Record groups := Groups {
  group1 : text;     (* option name *)
  group2 : text;     (* description *)
  group3 : text      (* default token *)
}.

Definition and_then {A B} (o : option A) (k : A -> option B) : option B :=
  match o with
  | Some a => k a
  | None => None
  end.

(** The pattern anchored at the start of [s]: the groups and the input
    left after the match. *)
Definition match_here (s : text) : option (groups * text) :=
  and_then (literal (cps "option(") s) (fun s1 =>
  first_success (fun n => let '(name, s2) := n in
    first_success (fun w1 => let '(_, s3) := w1 in
      and_then (literal [dquote] s3) (fun s4 =>
      first_success (fun d => let '(descr, s5) := d in
        and_then (literal [dquote] s5) (fun s6 =>
        first_success (fun w2 => let '(_, s7) := w2 in
          first_success (fun t => let '(tok, s8) := t in
            and_then (literal (cps ")") s8) (fun s9 =>
            Some (Groups name descr tok, s9)))
          (plus is_word s7))
        (plus is_space s6)))
      (plus not_dquote s4)))
    (plus is_space s2))
  (plus is_word s1)).

(** [re.finditer]: scan from the left; after a match the search goes on
    where the match ended, otherwise one character further.  A match is
    never empty, so the input shrinks at every step and [length s] steps
    are enough. *)
Fixpoint finditer_from (fuel : nat) (s : text) : list groups :=
  match fuel with
  | O => []
  | S fuel' =>
      match match_here s with
      | Some (g, rest) => g :: finditer_from fuel' rest
      | None =>
          match s with
          | [] => []
          | _ :: s' => finditer_from fuel' s'
          end
      end
  end.

Definition finditer (s : text) : list groups :=
  finditer_from (S (List.length s)) s.

End WithTables.
End Regex.
Import Regex.

(* ================================================================= *)
(** ** Python dictionaries

    A [dict] keeps its keys in insertion order; assigning to a key that is
    already present replaces the value and leaves the key where it is. *)

Module Dict.
Section Dict.
Variable V : Type.

Definition dict := list (text * V).

Definition keys (d : dict) : list text := map fst d.

Fixpoint get (k : text) (d : dict) : option V :=
  match d with
  | [] => None
  | (k', v) :: d' => if text_eqb k k' then Some v else get k d'
  end.

(** [d[k] = v] *)
Fixpoint set (k : text) (v : V) (d : dict) : dict :=
  match d with
  | [] => [(k, v)]
  | (k', v') :: d' =>
      if text_eqb k k' then (k, v) :: d' else (k', v') :: set k v d'
  end.

(** [k in d] *)
Definition mem (k : text) (d : dict) : bool :=
  match get k d with Some _ => true | None => false end.

End Dict.
Arguments get {V}.
Arguments set {V}.
Arguments mem {V}.
Arguments keys {V}.
End Dict.

(* ================================================================= *)
(** ** The option scanner: lines 28-41 of [read_cmake_options] *)

Module Scanner.

(** The inner dictionary [{'description': ..., 'value': ...}]. *)
Record option_entry := Entry {
  description : text;
  value : bool
}.

Definition options := Dict.dict option_entry.

Section WithTables.
Context {U : Unicode}.

Definition entry_of (g : groups) : option_entry :=
  {| description := group2 g;
     value := text_eqb (group3 g) (cps "ON") |}.

(** One turn of [for match in matches: options[name] = {...}]. *)
Definition record_match (opts : options) (g : groups) : options :=
  Dict.set (group1 g) (entry_of g) opts.

Definition scan_options (content : text) : options :=
  fold_left record_match (finditer content) [].

End WithTables.
End Scanner.
Import Scanner.

(* ================================================================= *)
(** ** The operating system: paths, files, exceptions *)

Module Os.

(** A path is the list of its components, innermost first, so that
    [os.path.dirname] is the tail and joining a relative name is a cons.
    The empty path is the root. *)
Definition path := list text.

Definition join (p : path) (name : text) : path := name :: p.
Definition dirname (p : path) : path := tl p.
Definition path_eqb : path -> path -> bool := list_eqb text_eqb.

Inductive node :=
| Dir
| File (content : text).

(** The file system: what is at each path, if anything.  The root is
    always a directory. *)
Definition fs := path -> option node.

Definition lookup (f : fs) (p : path) : option node :=
  match p with
  | [] => Some Dir
  | _ :: _ => f p
  end.

Definition update (p : path) (n : option node) (f : fs) : fs :=
  fun q => if path_eqb q p then n else f q.

(** [q] is [p] itself or lies below it. *)
Definition within (p q : path) : bool :=
  path_eqb (skipn (List.length q - List.length p) q) p.

Definition remove_tree (p : path) (f : fs) : fs :=
  fun q => if within p q then None else f q.

Definition is_dir (f : fs) (p : path) : bool :=
  match lookup f p with
  | Some Dir => true
  | _ => false
  end.

(** [os.path.exists] *)
Definition exists_ (f : fs) (p : path) : bool :=
  match lookup f p with
  | Some _ => true
  | None => false
  end.

(** Nothing lies strictly below [p]. *)
Definition dir_empty (f : fs) (p : path) : Prop :=
  forall name below, f (below ++ name :: p) = None.

(** Exceptions.  All of them derive from [Exception]; the first five are
    the subclasses of [OSError] that the file-system calls raise. *)
Inductive exn_class :=
| FileNotFoundError
| FileExistsError
| NotADirectoryError
| IsADirectoryError
| PermissionError
| OtherError.

Record exn := Exn {
  exn_class_of : exn_class;
  exn_target : path;
  exn_detail : text
}.

Definition is_OSError (e : exn) : bool :=
  match exn_class_of e with
  | OtherError => false
  | _ => true
  end.

Definition is_FileExistsError (e : exn) : bool :=
  match exn_class_of e with
  | FileExistsError => true
  | _ => false
  end.

Definition os_error (c : exn_class) (p : path) : exn := Exn c p [].

Inductive result (A : Type) :=
| Ok (a : A)
| Raise (e : exn).
Arguments Ok {A}.
Arguments Raise {A}.

(** Code with side effects on the file system that may raise.  The
    effects made before an exception stay. *)
Definition M (A : Type) := fs -> result A * fs.

Definition ret {A} (a : A) : M A := fun f => (Ok a, f).
Definition raise {A} (e : exn) : M A := fun f => (Raise e, f).

Definition bind {A B} (m : M A) (k : A -> M B) : M B :=
  fun f =>
    match m f with
    | (Ok a, f') => k a f'
    | (Raise e, f') => (Raise e, f')
    end.

(** [try: m  except Exception as e: handler e] *)
Definition try_except {A} (m : M A) (handler : exn -> M A) : M A :=
  fun f =>
    match m f with
    | (Ok a, f') => (Ok a, f')
    | (Raise e, f') => handler e f'
    end.

(** The calls into the operating system that the application makes. *)
Inductive syscall :=
| Mkdir (p : path)
| Rmtree (p : path)
| OpenRead (p : path)
| OpenWrite (p : path).

(** A child process that was started and ran to its end: the lines it
    wrote on its standard output and error, its exit status and the file
    system it left behind. *)
Record process := Process {
  stdout : list text;
  returncode : Z;
  fs_after : fs
}.

(** Everything the application takes from its surroundings: the
    environment, the interpreter's libraries, the machine.
    - [fault] lets a file-system call fail for reasons outside the model
      (permissions, a locked file, a full disk);
    - [rmtree_residue] is what an [rmtree] that fails leaves behind;
    - [popen] is [subprocess.Popen] followed by the reading of the pipe
      and [wait()]: it raises when the child cannot be started;
    - [yaml_dump] and [yaml_safe_load] are PyYAML. *)
Class Host := {
  environ_TEMP : option path;
  home : path;
  app_file : path;
  path_str : path -> text;
  exn_str : exn -> text;
  fault : syscall -> fs -> option exn;
  rmtree_residue : path -> fs -> fs;
  popen : list text -> path -> fs -> result process;
  yaml_dump : options -> text;
  yaml_safe_load : text -> result (option options)
}.

Section WithHost.
Context {H : Host}.

(** A system call: the host may refuse it, otherwise it runs. *)
Definition sys {A} (c : syscall) (run : M A) : M A :=
  fun f =>
    match fault c f with
    | Some e => (Raise e, f)
    | None => run f
    end.

(** [os.mkdir] *)
Definition mkdir (p : path) : M unit :=
  sys (Mkdir p) (fun f =>
    match lookup f p with
    | Some _ => (Raise (os_error FileExistsError p), f)
    | None =>
        match lookup f (dirname p) with
        | Some Dir => (Ok tt, update p (Some Dir) f)
        | Some (File _) => (Raise (os_error NotADirectoryError p), f)
        | None => (Raise (os_error FileNotFoundError p), f)
        end
    end).

(** [os.makedirs(name, exist_ok=exist_ok)]: the missing parents first,
    a [FileExistsError] from there being passed over; then the
    directory itself, an [OSError] being passed over when [exist_ok]
    and the directory is there. *)
Fixpoint makedirs (name : path) (exist_ok : bool) : M unit :=
  fun f =>
    let after_parents :=
      match name with
      | _ :: (_ :: _) as head =>
          if exists_ f head then (Ok tt, f)
          else
            match makedirs head exist_ok f with
            | (Raise e, f') =>
                if is_FileExistsError e then (Ok tt, f') else (Raise e, f')
            | r => r
            end
      | _ => (Ok tt, f)
      end in
    match after_parents with
    | (Raise e, f') => (Raise e, f')
    | (Ok _, f') =>
        match mkdir name f' with
        | (Raise e, f'') =>
            if is_OSError e && exist_ok && is_dir f'' name
            then (Ok tt, f'')
            else (Raise e, f'')
        | r => r
        end
    end.

(** The two stages of [makedirs], for reasoning about it. *)
Definition makedirs_parents (name : path) (exist_ok : bool) : M unit :=
  fun f =>
    match name with
    | _ :: (_ :: _) as head =>
        if exists_ f head then (Ok tt, f)
        else
          match makedirs head exist_ok f with
          | (Raise e, f') =>
              if is_FileExistsError e then (Ok tt, f') else (Raise e, f')
          | r => r
          end
    | _ => (Ok tt, f)
    end.

Definition makedirs_leaf (name : path) (exist_ok : bool) : M unit :=
  fun f =>
    match mkdir name f with
    | (Raise e, f'') =>
        if is_OSError e && exist_ok && is_dir f'' name
        then (Ok tt, f'')
        else (Raise e, f'')
    | r => r
    end.

(** [shutil.rmtree] *)
Definition rmtree (p : path) : M unit :=
  fun f =>
    match fault (Rmtree p) f with
    | Some e => (Raise e, rmtree_residue p f)
    | None =>
        match lookup f p with
        | Some Dir => (Ok tt, remove_tree p f)
        | Some (File _) => (Raise (os_error NotADirectoryError p), f)
        | None => (Raise (os_error FileNotFoundError p), f)
        end
    end.

(** [with open(p, 'r') as f: f.read()] *)
Definition read_file (p : path) : M text :=
  sys (OpenRead p) (fun f =>
    match lookup f p with
    | Some (File content) => (Ok content, f)
    | Some Dir => (Raise (os_error IsADirectoryError p), f)
    | None => (Raise (os_error FileNotFoundError p), f)
    end).

(** [with open(p, 'w') as f: f.write(content)] *)
Definition write_file (p : path) (content : text) : M unit :=
  sys (OpenWrite p) (fun f =>
    match lookup f p with
    | Some Dir => (Raise (os_error IsADirectoryError p), f)
    | _ =>
        match lookup f (dirname p) with
        | Some Dir => (Ok tt, update p (Some (File content)) f)
        | Some (File _) => (Raise (os_error NotADirectoryError p), f)
        | None => (Raise (os_error FileNotFoundError p), f)
        end
    end).

(** [os.path.exists] *)
Definition os_path_exists (p : path) : M bool :=
  fun f => (Ok (exists_ f p), f).

(** [subprocess.Popen(cmd, cwd=cwd, ...)], the pipe read to its end,
    [process.wait()]. *)
Definition run_process (cmd : list text) (cwd : path) : M process :=
  fun f =>
    match popen cmd cwd f with
    | Ok p => (Ok p, fs_after p)
    | Raise e => (Raise e, f)
    end.

End WithHost.
End Os.
Import Os.

Declare Scope py_scope.
Delimit Scope py_scope with py.
Notation "x <- m ;; k" := (bind m (fun x => k))
  (at level 61, m at next level, right associativity) : py_scope.
Notation "m ;;; k" := (bind m (fun _ => k))
  (at level 61, right associativity) : py_scope.

(* ================================================================= *)
(** ** app.py *)

Module App.

(** The context handed to the template of the configuration page. *)
Record build_status := BuildStatus {
  bs_exists : bool;
  bs_path : path
}.

(** What the generator of [/build] did when the response body was
    pulled to its end: the chunks it yielded and the exception that
    ended it, if one did. *)
Record stream := Stream {
  chunks : list text;
  ended_by : option exn
}.

(** What a handler returns to Flask. *)
Inductive response :=
| render_template (opts : options) (status : build_status)
| jsonify (fields : list (text * text))
| Response (body : fs -> stream * fs).

Section WithHost.
Context {U : Unicode} {H : Host}.
Open Scope py_scope.

Definition get_project_root : path := dirname (dirname app_file).

(** The path [get_build_dir] computes: [aimrt_build] under [%TEMP%],
    or under the home directory when [TEMP] is not set. *)
Definition build_dir_path : path :=
  join (match environ_TEMP with Some t => t | None => home end)
       (cps "aimrt_build").

Definition get_build_dir : M path :=
  let build_dir := build_dir_path in
  makedirs build_dir true ;;;
  ret build_dir.

Definition read_cmake_options : M options :=
  let cmake_path := join get_project_root (cps "CMakeLists.txt") in
  content <- read_file cmake_path ;;
  ret (scan_options content).

Definition config_path : path :=
  join (dirname app_file) (cps "cmake_config.yaml").

Definition save_cmake_options (opts : options) : M unit :=
  write_file config_path (yaml_dump opts).

Definition load_saved_options : M (option options) :=
  found <- os_path_exists config_path ;;
  if found then
    content <- read_file config_path ;;
    match yaml_safe_load content with
    | Ok saved => ret saved
    | Raise e => raise e
    end
  else ret None.

(** [options[key]['value'] = v]; a [KeyError] cannot arise where it is
    used, the key being taken from [options] itself. *)
Definition set_value (key : text) (v : bool) (opts : options) : options :=
  match Dict.get key opts with
  | Some entry => Dict.set key {| description := description entry; value := v |} opts
  | None => opts
  end.

(** The loop of [index]:
    [for key in options: if key in saved_options: ...]. *)
Definition merge_saved (saved opts : options) : options :=
  fold_left
    (fun acc key =>
       match Dict.get key saved with
       | Some s => set_value key (value s) acc
       | None => acc
       end)
    (Dict.keys opts) opts.

(** Truth value of what [load_saved_options] returned: [None] and the
    empty dictionary are false. *)
Definition truthy (saved : option options) : bool :=
  match saved with
  | Some (_ :: _) => true
  | _ => false
  end.

(** The dictionary that [index] hands to the template, given what the
    scanner and the store returned. *)
Definition displayed (opts : options) (saved : option options) : options :=
  match saved with
  | Some s => if truthy saved then merge_saved s opts else opts
  | None => opts
  end.

Definition index : M response :=
  opts <- read_cmake_options ;;
  saved_options <- load_saved_options ;;
  let opts := displayed opts saved_options in
  build_dir <- get_build_dir ;;
  found <- os_path_exists build_dir ;;
  ret (render_template opts {| bs_exists := found; bs_path := build_dir |}).

Definition save (opts : options) : M response :=
  save_cmake_options opts ;;;
  ret (jsonify [(cps "status", cps "success")]).

Definition clean : M response :=
  build_dir <- get_build_dir ;;
  try_except
    (rmtree build_dir ;;;
     makedirs build_dir false ;;;
     ret (jsonify [(cps "status", cps "success");
                   (cps "message", cps "Build directory cleaned successfully")]))
    (fun e =>
       ret (jsonify [(cps "status", cps "error"); (cps "message", exn_str e)])).

(** [f'-D{key}={value["value"] and "ON" or "OFF"}'] *)
Definition define_flag (key : text) (entry : option_entry) : text :=
  cps "-D" ++ key ++ cps "=" ++ (if value entry then cps "ON" else cps "OFF").

(** The argument list that [apply] builds. *)
Definition cmake_cmd (project_dir : path) (opts : options) : list text :=
  fold_left
    (fun cmd kv => cmd ++ [define_flag (fst kv) (snd kv)])
    opts
    [cps "cmake"; path_str project_dir].

Definition apply (opts : options) : M response :=
  save_cmake_options opts ;;;
  let project_dir := get_project_root in
  build_dir <- get_build_dir ;;
  let cmd := cmake_cmd project_dir opts in
  try_except
    (process <- run_process cmd build_dir ;;
     let output := fold_left (fun out line => out ++ [line]) (stdout process) [] in
     let success := (returncode process =? 0)%Z in
     ret (jsonify [(cps "status", if success then cps "success" else cps "error");
                   (cps "output", List.concat output)]))
    (fun e =>
       ret (jsonify [(cps "status", cps "error"); (cps "output", exn_str e)])).

Definition success_sentinel : text :=
  [newline] ++ cps "Build completed successfully!" ++ [newline].
Definition failure_sentinel : text :=
  [newline] ++ cps "Build failed with errors." ++ [newline].

Definition build_cmd : list text :=
  [cps "cmake"; cps "--build"; cps "."; cps "--parallel"].

(** The generator [generate] of [build], run to its end.  No [try]
    surrounds its body: an exception ends the stream. *)
Definition generate : fs -> stream * fs :=
  fun f =>
    match get_build_dir f with
    | (Raise e, f1) => (Stream [] (Some e), f1)
    | (Ok build_dir, f1) =>
        match run_process build_cmd build_dir f1 with
        | (Raise e, f2) => (Stream [] (Some e), f2)
        | (Ok process, f2) =>
            (Stream
               (stdout process ++
                [if (returncode process =? 0)%Z
                 then success_sentinel else failure_sentinel])
               None,
             f2)
        end
    end.

(** [build] wraps the generator in a [Response] and returns; the body
    of [generate] runs when Flask pulls the response. *)
Definition build : M response :=
  ret (Response generate).

End WithHost.
End App.
Import App.


(* ================================================================= *)
(** ** Declarations as the specification describes them

    The specification's parsing rule: a declaration is the keyword, an
    identifier token, a quoted description string and a bare final token.
    It is read here as a shape of text: the keyword with its parenthesis,
    the identifier, white space, the description between double quotes,
    white space, the final token and the closing parenthesis, where
    identifier and token are non-empty words and the description is
    non-empty and free of double quotes.  These definitions describe
    declarations, not the matching; the theorems below compare them with
    what the regular expression finds. *)

Module Layout.

Record declaration := Declaration {
  d_name : text;           (* the identifier *)
  d_gap1 : text;           (* white space before the description *)
  d_description : text;    (* between the quotes *)
  d_gap2 : text;           (* white space before the final token *)
  d_token : text           (* the bare final token *)
}.

(** The declaration as it stands in the file. *)
Definition declaration_text (d : declaration) : text :=
  cps "option(" ++ d_name d ++ d_gap1 d ++
  [dquote] ++ d_description d ++ [dquote] ++
  d_gap2 d ++ d_token d ++ cps ")".

(** A non-empty run of characters of one class. *)
Definition run (cls : char -> bool) (t : text) : bool :=
  match t with
  | [] => false
  | _ :: _ => forallb cls t
  end.

Section WithTables.
Context {U : Unicode}.

Definition well_formed (d : declaration) : bool :=
  run is_word (d_name d) && run is_space (d_gap1 d) &&
  run not_dquote (d_description d) &&
  run is_space (d_gap2 d) && run is_word (d_token d).

(** In the text [s ++ rest], no well-formed declaration starts at a
    position of the stretch [s].  The stretch may look like a
    declaration (a missing quote, a missing token, a missing
    parenthesis), as long as the text as it stands does not make a
    well-formed declaration of it. *)
Definition no_declaration_starts (s rest : text) : Prop :=
  forall before after d tail,
    s = before ++ after -> after <> [] -> well_formed d = true ->
    after ++ rest <> declaration_text d ++ tail.


(** A configuration text cut into declarations and the stretches
    between them. *)
Inductive piece :=
| Declared (d : declaration)
| Other (s : text).

Definition piece_text (p : piece) : text :=
  match p with
  | Declared d => declaration_text d
  | Other s => s
  end.

Definition layout_text (ps : list piece) : text :=
  List.concat (map piece_text ps).

Fixpoint declarations (ps : list piece) : list declaration :=
  match ps with
  | [] => []
  | Declared d :: ps' => d :: declarations ps'
  | Other _ :: ps' => declarations ps'
  end.

(** A cut of a text into well-formed declarations and stretches in
    which, in that text, no well-formed declaration starts.  The
    declarations of such a cut are the ones met when the text is read
    from the left, each reading going on after the closing parenthesis
    of the declaration before: a declaration that begins inside another
    one is not among them. *)
Fixpoint valid_layout (ps : list piece) : Prop :=
  match ps with
  | [] => True
  | Declared d :: ps' => well_formed d = true /\ valid_layout ps'
  | Other s :: ps' =>
      no_declaration_starts s (layout_text ps') /\ valid_layout ps'
  end.

(** The entry the specification expects for a declaration: its exact
    description, and true iff the final token is exactly ON. *)
Definition expected_entry (d : declaration) : text * option_entry :=
  (d_name d,
   {| description := d_description d;
      value := text_eqb (d_token d) (cps "ON") |}).

Definition groups_of (d : declaration) : groups :=
  Groups (d_name d) (d_description d) (d_token d).

End WithTables.

(** The keys of a list in the order of their first occurrence. *)
Fixpoint first_occurrences (ks : list text) : list text :=
  match ks with
  | [] => []
  | k :: ks' =>
      k :: filter (fun k' => negb (text_eqb k' k)) (first_occurrences ks')
  end.

(** The last element of a list of matches that has the given name. *)
Definition last_match (k : text) (ms : list groups) : option groups :=
  find (fun g => text_eqb k (group1 g)) (rev ms).

(** Two versions of the character tables that classify the characters
    of a text alike. *)
Definition agree_on (U V : Unicode) (s : text) : Prop :=
  forall c, In c s ->
    @isalnum U c = @isalnum V c /\ @isspace U c = @isspace V c.

(** The input after a run does not continue it. *)
Definition stops (cls : char -> bool) (r : text) : Prop :=
  match r with
  | [] => True
  | c :: _ => cls c = false
  end.

(** Not among the keys [ks]. *)
Definition absent (ks : list text) (k : text) : bool :=
  negb (existsb (text_eqb k) ks).

End Layout.
Import Layout.


(* ================================================================= *)
(** ** The five handlers as one family *)

Module Handlers.
Section WithHost.
Context {U : Unicode} {H : Host}.

Inductive handler :=
| Index
| Save (opts : options)
| Clean
| Apply (opts : options)
| Build.



(** The JSON of a response says [status: success], or the response is
    not such a JSON. *)
Definition reports_success (r : response) : bool :=
  match r with
  | jsonify ((k, v) :: _) =>
      negb (text_eqb k (cps "status")) || text_eqb v (cps "success")
  | _ => true
  end.

(** The two answers of [clean]. *)
Definition cleaned : response :=
  jsonify [(cps "status", cps "success");
           (cps "message", cps "Build directory cleaned successfully")].

Definition not_cleaned (e : exn) : response :=
  jsonify [(cps "status", cps "error"); (cps "message", exn_str e)].


(** A child process leaves its working directory in place. *)
Definition child_keeps_cwd : Prop :=
  forall cmd cwd f p,
    is_dir f cwd = true -> popen cmd cwd f = Ok p ->
    is_dir (fs_after p) cwd = true.

(** Two mappings with the same identifiers, each with the same
    description and value. *)
Definition equivalent (a b : options) : Prop :=
  forall k, Dict.get k a = Dict.get k b.

(** What the snapshot holds for a key, if a snapshot was loaded. *)
Definition snapshot_get (k : text) (saved : option options) : option option_entry :=
  match saved with
  | Some s => Dict.get k s
  | None => None
  end.

(** The entry shown for a scanned entry [e] when the snapshot holds [s]
    for the same key. *)
Definition overridden (e : option_entry) (s : option option_entry) : option_entry :=
  match s with
  | Some s => {| description := description e; value := value s |}
  | None => e
  end.

(** The entry the page shows for a scanned entry. *)
Definition shown_entry (saved : option options) (k : text) (e : option_entry) :=
  overridden e (snapshot_get k saved).

Definition shown_pair (saved : option options) (kv : text * option_entry) :=
  (fst kv, shown_entry saved (fst kv) (snd kv)).

End WithHost.
End Handlers.
Import Handlers.

(* ================================================================= *)
(** ** A small machine to run the model on *)

Module Demo.

Definition lit (s : string) : text := cps s.

(** /home/dev/OmniRT/cmake_config_tool/app.py, no TEMP in the
    environment. *)
Definition home_dir : path := [lit "dev"; lit "home"].
Definition project : path := lit "OmniRT" :: home_dir.
Definition package : path := lit "cmake_config_tool" :: project.
Definition the_build_dir : path := lit "aimrt_build" :: home_dir.

Definition posix_str (p : path) : text :=
  List.concat (map (fun c => lit "/" ++ c) (rev p)).

(** A stand-in for PyYAML that is enough to run the model: one field
    per line. *)
Definition dump_lines (opts : options) : text :=
  List.concat
    (map (fun kv =>
            fst kv ++ [newline] ++ description (snd kv) ++ [newline] ++
            (if value (snd kv) then lit "true" else lit "false") ++ [newline])
         opts).

Fixpoint lines_from (cur : text) (s : text) : list text :=
  match s with
  | [] => match cur with [] => [] | _ => [rev cur] end
  | c :: s' =>
      if (c =? newline)%N then rev cur :: lines_from [] s'
      else lines_from (c :: cur) s'
  end.

Fixpoint entries_from (fuel : nat) (ls : list text) : options :=
  match fuel, ls with
  | S n, k :: d :: v :: ls' =>
      (k, {| description := d; value := text_eqb v (lit "true") |})
        :: entries_from n ls'
  | _, _ => []
  end.

Definition load_lines (content : text) : result (option options) :=
  let ls := lines_from [] content in
  Ok (Some (entries_from (List.length ls) ls)).

Definition no_fault : syscall -> fs -> option exn := fun _ _ => None.

(** The build directory is locked: removing it is refused. *)
Definition locked : exn := Exn PermissionError the_build_dir (lit "locked").
Definition rmtree_refused : syscall -> fs -> option exn :=
  fun c _ => match c with Rmtree _ => Some locked | _ => None end.

(** [cmake] writes a cache file into its working directory and reports
    the given status; it cannot be started in a directory that is not
    there. *)
Definition cmake_runs (status : Z) : list text -> path -> fs -> result process :=
  fun _ cwd f =>
    if is_dir f cwd then
      Ok {| stdout := [lit "-- Configuring done" ++ [newline];
                       lit "-- Generating done" ++ [newline]];
            returncode := status;
            fs_after := update (lit "CMakeCache.txt" :: cwd) (Some (File [])) f |}
    else Raise (Exn NotADirectoryError cwd (lit "Not a directory")).

(** No [cmake] on the PATH. *)
Definition cmake_missing : exn :=
  Exn FileNotFoundError [lit "cmake"] (lit "No such file or directory: cmake").
Definition no_cmake : list text -> path -> fs -> result process :=
  fun _ _ _ => Raise cmake_missing.

Definition machine (flt : syscall -> fs -> option exn)
    (launch : list text -> path -> fs -> result process) : Host := {|
  environ_TEMP := None;
  home := home_dir;
  app_file := lit "app.py" :: package;
  path_str := posix_str;
  exn_str := exn_detail;
  fault := flt;
  rmtree_residue := fun _ f => f;
  popen := launch;
  yaml_dump := dump_lines;
  yaml_safe_load := load_lines
|}.

Definition healthy : Host := machine no_fault (cmake_runs 0).
Definition failing_build : Host := machine no_fault (cmake_runs 2).
Definition without_cmake : Host := machine no_fault no_cmake.
Definition locked_dir : Host := machine rmtree_refused (cmake_runs 0).

(** The scenario of the specification. *)
Definition foo : declaration :=
  Declaration (lit "FOO") (lit " ") (lit "enable foo") (lit " ") (lit "ON").
Definition bar : declaration :=
  Declaration (lit "BAR") (lit " ") (lit "enable bar") (lit " ") (lit "OFF").
Definition scenario_text : text :=
  declaration_text foo ++ [newline] ++ declaration_text bar.

(** A declaration without its quoted description, on a line of its own. *)
Definition unquoted_line : text := lit "option(BAZ enable ON)" ++ [newline].
Definition scenario_layout : list piece :=
  [Declared foo; Other [newline]; Other unquoted_line; Declared bar].

(** One identifier declared twice. *)
Definition first_a : declaration :=
  Declaration (lit "A") (lit " ") (lit "first") (lit " ") (lit "ON").
Definition second_a : declaration :=
  Declaration (lit "A") (lit " ") (lit "second") (lit " ") (lit "OFF").
Definition twice_layout : list piece :=
  [Declared first_a; Other [newline]; Declared second_a].

(** Files: the project with its CMakeLists.txt and the package
    directory; [with_build_dir] adds the build directory with one file
    in it. *)
Definition nothing : fs := fun _ => None.
Definition checkout : fs :=
  update (lit "CMakeLists.txt" :: project) (Some (File scenario_text))
    (update package (Some Dir)
       (update project (Some Dir)
          (update home_dir (Some Dir)
             (update [lit "home"] (Some Dir) nothing)))).
Definition with_build_dir : fs :=
  update (lit "stale.o" :: the_build_dir) (Some (File (lit "obj")))
    (update the_build_dir (Some Dir) checkout).

Definition ab_scanned : options :=
  [(lit "A", Entry (lit "a switch") true); (lit "B", Entry (lit "b switch") false)].
Definition a_saved : options :=
  [(lit "A", Entry (lit "stored text") false)].
Definition foo_off : options :=
  [(lit "FOO", Entry (lit "enable foo") false)].

(** A snapshot that stores another description for FOO, and a file
    system in which it has been saved. *)
Definition foo_renamed : options :=
  [(lit "FOO", Entry (lit "stored text") false)].
Definition with_snapshot : fs :=
  update (lit "cmake_config.yaml" :: package)
    (Some (File (dump_lines foo_renamed))) checkout.

End Demo.


(* ================================================================= *)
(** ** Further notions and machines for the properties of the handlers *)

Module More.

(** [f'] is [f] with, at most, new directories at [p] and above it:
  every path holds what it held, or held nothing and now holds a
  directory and is [p] or one of its ancestors. *)
Definition created_dirs_only (p : path) (f f' : fs) : Prop :=
forall q,
  f' q = f q \/
  (f q = None /\ f' q = Some Dir /\ exists l, p = l ++ q).

(** The flags that follow [cmake] and the project path. *)
Definition define_flags (opts : options) : list text :=
map (fun kv => define_flag (fst kv) (snd kv)) opts.

(** A machine whose YAML loader rejects every document. *)
Definition yaml_error : exn :=
Exn OtherError [] (Demo.lit "could not determine a constructor").
Definition unparsable : Host := {|
environ_TEMP := None;
home := Demo.home_dir;
app_file := Demo.lit "app.py" :: Demo.package;
path_str := Demo.posix_str;
exn_str := exn_detail;
fault := Demo.no_fault;
rmtree_residue := fun _ f => f;
popen := Demo.cmake_runs 0;
yaml_dump := Demo.dump_lines;
yaml_safe_load := fun _ => Raise yaml_error
|}.

(** A machine on which no directory can be made: [mkdir] of a path that
  does not exist is refused. *)
Definition denied : exn :=
Exn PermissionError Demo.the_build_dir (Demo.lit "Permission denied").
Definition no_new_dirs : syscall -> fs -> option exn :=
fun c f =>
  match c with
  | Mkdir p => if exists_ f p then None else Some denied
  | _ => None
  end.
Definition read_only_home : Host := Demo.machine no_new_dirs (Demo.cmake_runs 0).

(** A regular file where the build directory should be. *)
Definition blocked : fs :=
update Demo.the_build_dir (Some (File (Demo.lit "x"))) Demo.checkout.

(** Two more snapshots. *)
Definition bar_on : options :=
[(Demo.lit "BAR", Entry (Demo.lit "enable bar") true)].
Definition foo_bar : options :=
[(Demo.lit "FOO", Entry (Demo.lit "enable foo") false);
 (Demo.lit "BAR", Entry (Demo.lit "enable bar") true)].




(** The example of the specification as a project: A declared ON and B
  declared OFF in the CMakeLists.txt, A saved as false. *)
Definition switch_a : declaration :=
Declaration (Demo.lit "A") (Demo.lit " ") (Demo.lit "a switch")
            (Demo.lit " ") (Demo.lit "ON").
Definition switch_b : declaration :=
Declaration (Demo.lit "B") (Demo.lit " ") (Demo.lit "b switch")
            (Demo.lit " ") (Demo.lit "OFF").
Definition ab_text : text :=
declaration_text switch_a ++ [newline] ++ declaration_text switch_b.
Definition ab_project : fs :=
update (Demo.lit "cmake_config.yaml" :: Demo.package)
  (Some (File (Demo.dump_lines Demo.a_saved)))
  (update (Demo.lit "CMakeLists.txt" :: Demo.project)
     (Some (File ab_text)) Demo.checkout).

(** A stand-in for [cmake] that prints its arguments, one per line of
  output, and exits with 0. *)
Definition cmake_echo : list text -> path -> fs -> result process :=
fun cmd _ f => Ok {| stdout := cmd; returncode := 0; fs_after := f |}.
Definition echoing : Host := Demo.machine Demo.no_fault cmake_echo.

End More.
Import More.


(* ================================================================= *)
(** * Properties *)

Unset Implicit Arguments.

(** ** Equality tests *)

Lemma list_eqb_eq (A : Type) (eqb : A -> A -> bool) :
  (forall a b, eqb a b = true <-> a = b) ->
  forall l1 l2, list_eqb eqb l1 l2 = true <-> l1 = l2.
Proof.
  intros Heq l1.
  induction l1 as [|a l1 IH]; intros [|b l2]; simpl; split;
    try discriminate; try reflexivity.
  - intros E. apply andb_true_iff in E as [E1 E2].
    apply Heq in E1. apply IH in E2. now subst.
  - intros E. injection E as -> ->.
    apply andb_true_iff. split; [now apply Heq | now apply IH].
Qed.

Lemma text_eqb_eq (a b : text) : text_eqb a b = true <-> a = b.
Proof. apply list_eqb_eq. intros x y. apply N.eqb_eq. Qed.

Lemma text_eqb_refl (a : text) : text_eqb a a = true.
Proof. now apply text_eqb_eq. Qed.

Lemma text_eqb_neq (a b : text) : text_eqb a b = false <-> a <> b.
Proof.
  rewrite <- text_eqb_eq. destruct (text_eqb a b); split; intros;
    congruence.
Qed.

Lemma text_eqb_sym (a b : text) : text_eqb a b = text_eqb b a.
Proof.
  destruct (text_eqb a b) eqn:E.
  - apply text_eqb_eq in E. subst. now rewrite text_eqb_refl.
  - apply text_eqb_neq in E. symmetry. apply text_eqb_neq. congruence.
Qed.

Lemma path_eqb_eq (p q : path) : path_eqb p q = true <-> p = q.
Proof. apply list_eqb_eq. exact text_eqb_eq. Qed.

Lemma path_eqb_refl (p : path) : path_eqb p p = true.
Proof. now apply path_eqb_eq. Qed.

(** ** The regular expression *)

Section RegexFacts.
Context {U : Unicode}.

Lemma literal_some (lit s r : text) :
  literal lit s = Some r <-> s = lit ++ r.
Proof.
  revert s. induction lit as [|a lit IH]; intros s; simpl.
  - split; congruence.
  - destruct s as [|b s].
    + split; discriminate.
    + destruct (N.eqb_spec a b) as [->|Hne].
      * rewrite IH. split; congruence.
      * split; [discriminate | congruence].
Qed.

Lemma literal_app (lit r : text) : literal lit (lit ++ r) = Some r.
Proof. now apply literal_some. Qed.

Lemma run_cons (cls : char -> bool) (c : char) (t : text) :
  run cls (c :: t) = cls c && forallb cls t.
Proof. reflexivity. Qed.

Lemma run_nonempty (cls : char -> bool) (t : text) :
  run cls t = true -> t <> [] /\ forallb cls t = true.
Proof. destruct t; [discriminate | split; [discriminate | assumption]]. Qed.

(** Every way of splitting that [X+] proposes takes a non-empty run of
    [X] off the front. *)
Lemma plus_sound (cls : char -> bool) (s t r : text) :
  In (t, r) (plus cls s) -> s = t ++ r /\ run cls t = true.
Proof.
  revert t r. induction s as [|c s IH]; intros t r Hin; simpl in Hin.
  - contradiction.
  - destruct (cls c) eqn:Hc; [|contradiction].
    apply in_app_or in Hin as [Hin|Hin].
    + apply in_map_iff in Hin as [[t' r'] [E Hin]].
      simpl in E. injection E as <- <-.
      apply IH in Hin as [-> Hrun].
      split; [reflexivity|].
      rewrite run_cons, Hc. apply run_nonempty in Hrun. tauto.
    + destruct Hin as [E|[]]. injection E as <- <-.
      split; [reflexivity|]. now rewrite run_cons, Hc.
Qed.

Lemma plus_stops (cls : char -> bool) (r : text) :
  stops cls r -> plus cls r = [].
Proof. destruct r as [|c r]; simpl; [reflexivity | now intros ->]. Qed.

(** The longest run is tried first. *)
Lemma plus_greedy (cls : char -> bool) (t r : text) :
  run cls t = true -> stops cls r ->
  exists others, plus cls (t ++ r) = (t, r) :: others.
Proof.
  intros Hrun Hstop. induction t as [|c t IH]; [discriminate|].
  rewrite run_cons in Hrun. apply andb_true_iff in Hrun as [Hc Hall].
  simpl. rewrite Hc. destruct t as [|c' t].
  - simpl. rewrite (plus_stops _ _ Hstop). now exists [].
  - destruct IH as [others E]; [exact Hall|].
    rewrite E. simpl. eexists. reflexivity.
Qed.

Lemma first_success_some (A B : Type) (k : A -> option B) alts b :
  first_success k alts = Some b -> exists a, In a alts /\ k a = Some b.
Proof.
  induction alts as [|a alts IH]; simpl; [discriminate|].
  destruct (k a) eqn:E.
  - intros [= ->]. exists a. auto.
  - intros Hs. destruct (IH Hs) as [a' [Hin Hk]]. exists a'. auto.
Qed.

Lemma first_success_head (A B : Type) (k : A -> option B) a alts b :
  k a = Some b -> first_success k (a :: alts) = Some b.
Proof. intros E. simpl. now rewrite E. Qed.

Ltac peel H :=
  lazymatch type of H with
  | and_then ?o _ = Some _ =>
      let E := fresh "Elit" in
      destruct o eqn:E; [cbn [and_then] in H | discriminate H];
      apply literal_some in E
  | first_success _ _ = Some _ =>
      let Hin := fresh "Hin" in
      apply first_success_some in H;
      destruct H as [[? ?] [Hin H]];
      apply plus_sound in Hin; destruct Hin as [? ?];
      cbv beta iota in H
  end.

(** Soundness: whatever the pattern matches is a well-formed
    declaration standing at the start of the input, and the groups are
    its name, description and token. *)
Lemma match_here_sound (s : text) (g : groups) (rest : text) :
  match_here s = Some (g, rest) ->
  exists gap1 gap2,
    let d := Declaration (group1 g) gap1 (group2 g) gap2 (group3 g) in
    well_formed d = true /\ s = declaration_text d ++ rest.
Proof.
  unfold match_here. intros Hm.
  do 9 peel Hm.
  injection Hm as <- <-. subst.
  eexists _, _. cbn [group1 group2 group3]. split; cycle 1.
  - unfold declaration_text.
    cbn [d_name d_gap1 d_description d_gap2 d_token].
    repeat rewrite <- app_assoc. reflexivity.
  - unfold well_formed. cbn [d_name d_gap1 d_description d_gap2 d_token].
    repeat (apply andb_true_iff; split); assumption.
Qed.

Lemma declaration_text_length (d : declaration) :
  7 < List.length (declaration_text d).
Proof.
  unfold declaration_text. repeat rewrite length_app. simpl. lia.
Qed.

(** A match is never empty. *)
Lemma match_here_shrinks (s : text) (g : groups) (rest : text) :
  match_here s = Some (g, rest) -> List.length rest < List.length s.
Proof.
  intros Hm. apply match_here_sound in Hm as (g1 & g2 & _ & ->).
  rewrite length_app.
  pose proof (declaration_text_length
                (Declaration (group1 g) g1 (group2 g) g2 (group3 g))).
  lia.
Qed.

Lemma match_here_nil : match_here [] = None.
Proof. reflexivity. Qed.

(** [finditer] does not depend on the fuel once there is enough. *)
Lemma finditer_from_enough (n m : nat) (s : text) :
  List.length s < n -> List.length s < m ->
  finditer_from n s = finditer_from m s.
Proof.
  revert m s. induction n as [|n IH]; intros m s Hn Hm; [lia|].
  destruct m as [|m]; [lia|]. simpl.
  destruct (match_here s) as [[g rest]|] eqn:E.
  - apply match_here_shrinks in E. f_equal. apply IH; lia.
  - destruct s as [|c s]; [reflexivity|]. simpl in Hn, Hm. apply IH; lia.
Qed.

Lemma finditer_from_step (n : nat) (s : text) :
  finditer_from (S n) s =
  match match_here s with
  | Some (g, rest) => g :: finditer_from n rest
  | None =>
      match s with
      | [] => []
      | _ :: s' => finditer_from n s'
      end
  end.
Proof. reflexivity. Qed.

Lemma finditer_match (s : text) (g : groups) (rest : text) :
  match_here s = Some (g, rest) -> finditer s = g :: finditer rest.
Proof.
  intros E. unfold finditer. rewrite finditer_from_step, E. f_equal.
  pose proof (match_here_shrinks _ _ _ E).
  apply finditer_from_enough; lia.
Qed.

Lemma finditer_skip (c : char) (s : text) :
  match_here (c :: s) = None -> finditer (c :: s) = finditer s.
Proof.
  intros E. unfold finditer. rewrite finditer_from_step, E. reflexivity.
Qed.

Lemma finditer_nil : finditer [] = [].
Proof. reflexivity. Qed.

(** Every match that [finditer] reports is a well-formed declaration
    that stands in the text. *)
Lemma finditer_sound (s : text) (g : groups) :
  In g (finditer s) ->
  exists before gap1 gap2 rest,
    let d := Declaration (group1 g) gap1 (group2 g) gap2 (group3 g) in
    well_formed d = true /\ s = before ++ declaration_text d ++ rest.
Proof.
  remember (List.length s) as n eqn:Hn.
  revert s Hn. induction n as [n IH] using lt_wf_ind. intros s -> Hin.
  destruct (match_here s) as [[g' rest]|] eqn:E.
  - rewrite (finditer_match _ _ _ E) in Hin. destruct Hin as [->|Hin].
    + apply match_here_sound in E as (g1 & g2 & Hwf & Hs).
      exists [], g1, g2, rest. now split.
    + pose proof (match_here_shrinks _ _ _ E) as Hlt.
      destruct (IH _ Hlt rest eq_refl Hin) as (b & g1 & g2 & r & Hwf & ->).
      apply match_here_sound in E as (h1 & h2 & _ & ->).
      eexists (_ ++ b), g1, g2, r. split; [exact Hwf|].
      now rewrite <- app_assoc.
  - destruct s as [|c s]; [contradiction|].
    rewrite (finditer_skip _ _ E) in Hin.
    destruct (IH (List.length s) (Nat.lt_succ_diag_r _) s eq_refl Hin)
      as (b & g1 & g2 & r & Hwf & ->).
    exists (c :: b), g1, g2, r. now split.
Qed.

End RegexFacts.


(** ** The pattern finds the well-formed declarations *)

Section RegexComplete.
Context {U : Unicode} {L : UnicodeLaws U}.

Lemma space_not_word (c : char) : is_space c = true -> is_word c = false.
Proof.
  unfold is_space, is_word. intros Hs.
  rewrite (space_not_alnum c Hs). simpl.
  apply N.eqb_neq. intros ->.
  rewrite underscore_not_space in Hs. discriminate.
Qed.

Lemma word_not_space (c : char) : is_word c = true -> is_space c = false.
Proof.
  intros Hw. destruct (is_space c) eqn:Hs; [|reflexivity].
  apply space_not_word in Hs. congruence.
Qed.

Lemma stops_after_run (cls cls' : char -> bool) (t r : text) :
  (forall c, cls' c = true -> cls c = false) ->
  run cls' t = true -> stops cls (t ++ r).
Proof.
  intros Hdisj Hrun. destruct t as [|c t]; [discriminate|].
  rewrite run_cons in Hrun. apply andb_true_iff in Hrun as [Hc _].
  simpl. now apply Hdisj.
Qed.

Lemma stops_space_dquote (r : text) : stops is_space ([dquote] ++ r).
Proof. simpl. unfold is_space. apply dquote_not_space. Qed.

Lemma stops_description_dquote (r : text) : stops not_dquote ([dquote] ++ r).
Proof. reflexivity. Qed.

Lemma stops_word_rparen (r : text) : stops is_word (cps ")" ++ r).
Proof.
  simpl. unfold is_word. change (N_of_ascii ")") with 41%N.
  now rewrite rparen_not_alnum.
Qed.

(** Completeness: at a well-formed declaration the pattern matches, at
    the first attempt of every loop, and returns the declaration's own
    name, description and token. *)
Lemma match_here_complete (d : declaration) (rest : text) :
  well_formed d = true ->
  match_here (declaration_text d ++ rest) = Some (groups_of d, rest).
Proof.
  destruct d as [name gap1 descr gap2 tok].
  unfold well_formed, groups_of, declaration_text, match_here.
  cbn [d_name d_gap1 d_description d_gap2 d_token].
  intros Hwf.
  repeat (apply andb_true_iff in Hwf; destruct Hwf as [Hwf ?]).
  repeat rewrite <- app_assoc.
  rewrite literal_app. cbn [and_then].
  edestruct (plus_greedy is_word name) as [o1 ->];
    [eassumption | eapply stops_after_run; [apply space_not_word | eassumption] |].
  apply first_success_head.
  edestruct (plus_greedy is_space gap1) as [o2 ->];
    [eassumption | apply stops_space_dquote |].
  apply first_success_head.
  rewrite literal_app. cbn [and_then].
  edestruct (plus_greedy not_dquote descr) as [o3 ->];
    [eassumption | apply stops_description_dquote |].
  apply first_success_head.
  rewrite literal_app. cbn [and_then].
  edestruct (plus_greedy is_space gap2) as [o4 ->];
    [eassumption | eapply stops_after_run; [apply word_not_space | eassumption] |].
  apply first_success_head.
  edestruct (plus_greedy is_word tok) as [o5 ->];
    [eassumption | apply stops_word_rparen |].
  apply first_success_head.
  rewrite literal_app. reflexivity.
Qed.

Lemma finditer_declaration (d : declaration) (rest : text) :
  well_formed d = true ->
  finditer (declaration_text d ++ rest) = groups_of d :: finditer rest.
Proof.
  intros Hwf. apply finditer_match. now apply match_here_complete.
Qed.

(** Nothing is found in a stretch in which no declaration starts. *)
Lemma finditer_quiet (s rest : text) :
  no_declaration_starts s rest -> finditer (s ++ rest) = finditer rest.
Proof.
  intros Hquiet.
  assert (Hsuffix : forall after before,
             s = before ++ after ->
             finditer (after ++ rest) = finditer rest).
  { induction after as [|c after IH]; intros before Hs; [reflexivity|].
    simpl. rewrite finditer_skip.
    - apply (IH (before ++ [c])). now rewrite <- app_assoc.
    - destruct (match_here (c :: after ++ rest)) as [[g r]|] eqn:E;
        [|reflexivity].
      apply match_here_sound in E as (g1 & g2 & Hwf & Htext).
      exfalso.
      eapply (Hquiet before (c :: after)); eauto. discriminate. }
  apply (Hsuffix s []). reflexivity.
Qed.

(** Where the pattern does not match, no well-formed declaration
    starts. *)
Lemma no_match_no_declaration (s rest : text) :
  (forall before after,
      s = before ++ after -> after <> [] ->
      match_here (after ++ rest) = None) ->
  no_declaration_starts s rest.
Proof.
  intros Hnone before after d tail Hs Hne Hwf E.
  specialize (Hnone before after Hs Hne).
  rewrite E, match_here_complete in Hnone by assumption. discriminate.
Qed.

(** The matches of a laid-out text are its declarations, in order. *)
Lemma finditer_layout (ps : list piece) :
  valid_layout ps ->
  finditer (layout_text ps) = map groups_of (declarations ps).
Proof.
  induction ps as [|p ps IH]; [reflexivity|].
  destruct p as [d|s]; intros [Hp Hv];
    change (layout_text (Declared d :: ps))
      with (declaration_text d ++ layout_text ps) ||
    change (layout_text (Other s :: ps)) with (s ++ layout_text ps);
    cbn [declarations map].
  - rewrite finditer_declaration by assumption. now rewrite IH.
  - rewrite finditer_quiet by assumption. now apply IH.
Qed.


(** Two valid cuts of one text hold the same declarations, gaps
    apart. *)
Lemma layouts_agree (ps ps' : list piece) :
  layout_text ps = layout_text ps' -> valid_layout ps -> valid_layout ps' ->
  map groups_of (declarations ps) = map groups_of (declarations ps').
Proof.
  intros E Hv Hv'.
  rewrite <- (finditer_layout ps Hv), <- (finditer_layout ps' Hv').
  now rewrite E.
Qed.

End RegexComplete.


(** ** Only the characters of the text count

    The scanner consults the character tables at the characters of the
    text and nowhere else: on an ASCII text, [ascii_tables] stands for
    the tables of any interpreter. *)

Section TablesExt.

Lemma plus_ext (cls cls' : char -> bool) (s : text) :
  (forall c, In c s -> cls c = cls' c) -> plus cls s = plus cls' s.
Proof.
  induction s as [|c s IH]; intros Hagree; simpl; [reflexivity|].
  rewrite <- (Hagree c) by (now left).
  rewrite IH by (intros x Hx; apply Hagree; now right).
  reflexivity.
Qed.

Lemma plus_rest_incl (cls : char -> bool) (s t r : text) :
  In (t, r) (plus cls s) -> incl r s.
Proof.
  intros Hin. apply plus_sound in Hin as [-> _]. now apply incl_appr.
Qed.

Lemma first_success_ext (A B : Type) (k k' : A -> option B) (alts : list A) :
  (forall a, In a alts -> k a = k' a) ->
  first_success k alts = first_success k' alts.
Proof.
  induction alts as [|a alts IH]; intros Hk; simpl; [reflexivity|].
  rewrite <- (Hk a) by (now left).
  rewrite IH by (intros x Hx; apply Hk; now right).
  reflexivity.
Qed.

(** One loop of the pattern under two tables. *)
Lemma loop_ext (B : Type) (cls cls' : char -> bool) (s : text)
    (k k' : text * text -> option B) :
  (forall c, In c s -> cls c = cls' c) ->
  (forall t r, incl r s -> k (t, r) = k' (t, r)) ->
  first_success k (plus cls s) = first_success k' (plus cls' s).
Proof.
  intros Hcls Hk. rewrite <- (plus_ext cls cls' s Hcls).
  apply first_success_ext. intros [t r] Hin.
  apply Hk. eapply plus_rest_incl. exact Hin.
Qed.

(** One literal of the pattern under two continuations. *)
Lemma literal_ext (B : Type) (lit s : text) (k k' : text -> option B) :
  (forall r, incl r s -> k r = k' r) ->
  and_then (literal lit s) k = and_then (literal lit s) k'.
Proof.
  intros Hk. destruct (literal lit s) as [r|] eqn:E; [|reflexivity].
  apply literal_some in E. subst s. simpl. apply Hk. now apply incl_appr.
Qed.

Variables U V : Unicode.

Lemma agree_on_incl (s r : text) : agree_on U V s -> incl r s -> agree_on U V r.
Proof. intros Ha Hi c Hc. apply Ha. now apply Hi. Qed.

Lemma is_word_agree (s : text) :
  agree_on U V s ->
  forall c, In c s -> is_word (U := U) c = is_word (U := V) c.
Proof. intros Ha c Hc. unfold is_word. now destruct (Ha c Hc) as [-> _]. Qed.

Lemma is_space_agree (s : text) :
  agree_on U V s ->
  forall c, In c s -> is_space (U := U) c = is_space (U := V) c.
Proof. intros Ha c Hc. unfold is_space. now destruct (Ha c Hc) as [_ ->]. Qed.

Lemma match_here_ext (s : text) :
  agree_on U V s -> match_here (U := U) s = match_here (U := V) s.
Proof.
  intros Ha. unfold match_here.
  apply literal_ext. intros s1 H1.
  pose proof (agree_on_incl s s1 Ha H1) as A1.
  apply loop_ext; [now apply is_word_agree|]. intros name s2 H2.
  pose proof (agree_on_incl s1 s2 A1 H2) as A2.
  apply loop_ext; [now apply is_space_agree|]. intros gap1 s3 H3.
  pose proof (agree_on_incl s2 s3 A2 H3) as A3.
  apply literal_ext. intros s4 H4.
  pose proof (agree_on_incl s3 s4 A3 H4) as A4.
  apply loop_ext; [reflexivity|]. intros descr s5 H5.
  pose proof (agree_on_incl s4 s5 A4 H5) as A5.
  apply literal_ext. intros s6 H6.
  pose proof (agree_on_incl s5 s6 A5 H6) as A6.
  apply loop_ext; [now apply is_space_agree|]. intros gap2 s7 H7.
  pose proof (agree_on_incl s6 s7 A6 H7) as A7.
  apply loop_ext; [now apply is_word_agree|]. intros tok s8 H8.
  reflexivity.
Qed.

Lemma finditer_from_ext (n : nat) (s : text) :
  agree_on U V s ->
  finditer_from (U := U) n s = finditer_from (U := V) n s.
Proof.
  revert s. induction n as [|n IH]; intros s Ha; [reflexivity|].
  rewrite !finditer_from_step, <- (match_here_ext s Ha).
  destruct (match_here (U := U) s) as [[g rest]|] eqn:E.
  - f_equal. apply IH.
    apply match_here_sound in E as (g1 & g2 & _ & Hs).
    apply (agree_on_incl s rest Ha). rewrite Hs. now apply incl_appr.
  - destruct s as [|c s]; [reflexivity|].
    apply IH. apply (agree_on_incl (c :: s) s Ha). now apply incl_tl.
Qed.

(** The scanner's result under two tables that agree on the text. *)
Lemma scan_options_ext (content : text) :
  agree_on U V content ->
  scan_options (U := U) content = scan_options (U := V) content.
Proof.
  intros Ha. unfold scan_options, finditer.
  now rewrite (finditer_from_ext _ content Ha).
Qed.

End TablesExt.


(** ** Dictionaries *)

Section DictFacts.
Variable V : Type.
Implicit Types (d : Dict.dict V) (k : text) (v : V).

Lemma get_set_same d k v : Dict.get k (Dict.set k v d) = Some v.
Proof.
  induction d as [|[k' v'] d IH]; simpl.
  - now rewrite text_eqb_refl.
  - destruct (text_eqb k k') eqn:E; simpl.
    + now rewrite text_eqb_refl.
    + now rewrite E.
Qed.

Lemma get_set_other d k k' v :
  k <> k' -> Dict.get k' (Dict.set k v d) = Dict.get k' d.
Proof.
  intros Hne. induction d as [|[k0 v0] d IH]; simpl.
  - apply not_eq_sym in Hne. apply text_eqb_neq in Hne. now rewrite Hne.
  - destruct (text_eqb k k0) eqn:E; simpl.
    + apply text_eqb_eq in E. subst k0.
      apply not_eq_sym in Hne. apply text_eqb_neq in Hne. now rewrite Hne.
    + now rewrite IH.
Qed.

Lemma get_some_in_keys d k :
  (exists v, Dict.get k d = Some v) <-> In k (Dict.keys d).
Proof.
  induction d as [|[k' v'] d IH]; simpl.
  - split; [intros [v E]; discriminate | contradiction].
  - destruct (text_eqb k k') eqn:E.
    + apply text_eqb_eq in E. subst. split; eauto.
    + apply text_eqb_neq in E. rewrite IH. split; [auto|].
      intros [E'|Hin]; [congruence | assumption].
Qed.

Lemma get_none_not_in_keys d k :
  Dict.get k d = None <-> ~ In k (Dict.keys d).
Proof.
  rewrite <- get_some_in_keys. destruct (Dict.get k d) as [v|]; split.
  - discriminate.
  - intros Hn. exfalso. apply Hn. now exists v.
  - intros _ [v E]. discriminate.
  - reflexivity.
Qed.

(** Assigning to a present key leaves the keys as they are. *)
Lemma keys_set_present d k v :
  In k (Dict.keys d) -> Dict.keys (Dict.set k v d) = Dict.keys d.
Proof.
  induction d as [|[k' v'] d IH]; simpl; [contradiction|].
  destruct (text_eqb k k') eqn:E; simpl.
  - apply text_eqb_eq in E. now subst.
  - apply text_eqb_neq in E. intros [E'|Hin]; [congruence|].
    now rewrite IH.
Qed.

(** Assigning to a new key appends the entry. *)
Lemma set_absent d k v :
  ~ In k (Dict.keys d) -> Dict.set k v d = d ++ [(k, v)].
Proof.
  induction d as [|[k' v'] d IH]; simpl; [reflexivity|].
  intros Hn. destruct (text_eqb k k') eqn:E.
  - apply text_eqb_eq in E. subst. exfalso. auto.
  - rewrite IH; auto.
Qed.

Lemma keys_set d k v :
  Dict.keys (Dict.set k v d) =
  if Dict.mem k d then Dict.keys d else Dict.keys d ++ [k].
Proof.
  unfold Dict.mem. destruct (Dict.get k d) as [v0|] eqn:E.
  - apply keys_set_present. apply get_some_in_keys. eauto.
  - apply get_none_not_in_keys in E. rewrite set_absent by assumption.
    unfold Dict.keys. now rewrite map_app.
Qed.

Lemma NoDup_keys_set d k v :
  NoDup (Dict.keys d) -> NoDup (Dict.keys (Dict.set k v d)).
Proof.
  intros Hnd. rewrite keys_set. unfold Dict.mem.
  destruct (Dict.get k d) eqn:E; [assumption|].
  apply get_none_not_in_keys in E.
  apply NoDup_app; [assumption | constructor; [intros [] | constructor] |].
  intros x Hx [<-|[]]. contradiction.
Qed.

Lemma length_keys d : List.length (Dict.keys d) = List.length d.
Proof. apply length_map. Qed.

End DictFacts.


(** ** The scanner's loop *)

Section ScannerFacts.

Lemma existsb_text_eqb (ks : list text) (k : text) :
  existsb (text_eqb k) ks = true <-> In k ks.
Proof.
  rewrite existsb_exists. split.
  - intros [x [Hin E]]. apply text_eqb_eq in E. now subst.
  - intros Hin. exists k. split; [assumption | apply text_eqb_refl].
Qed.

Lemma absent_true (ks : list text) (k : text) :
  absent ks k = true <-> ~ In k ks.
Proof.
  unfold absent. rewrite negb_true_iff, <- existsb_text_eqb.
  destruct (existsb (text_eqb k) ks); split; congruence.
Qed.

Lemma absent_false (ks : list text) (k : text) :
  absent ks k = false <-> In k ks.
Proof. unfold absent. now rewrite negb_false_iff, existsb_text_eqb. Qed.

Lemma filter_twice (A : Type) (p q : A -> bool) (l : list A) :
  filter p (filter q l) = filter (fun x => p x && q x) l.
Proof.
  induction l as [|a l IH]; simpl; [reflexivity|].
  destruct (q a); simpl; rewrite ?andb_true_r, ?andb_false_r;
    [destruct (p a)|]; now rewrite IH.
Qed.


Lemma NoDup_first_occurrences (ks : list text) :
  NoDup (first_occurrences ks).
Proof.
  induction ks as [|k ks IH]; simpl; constructor.
  - rewrite filter_In, text_eqb_refl. intros [_ E]. discriminate.
  - now apply NoDup_filter.
Qed.

(** Without repetition every key is its own first occurrence. *)
Lemma first_occurrences_NoDup (ks : list text) :
  NoDup ks -> first_occurrences ks = ks.
Proof.
  induction 1 as [|k ks Hn _ IH]; simpl; [reflexivity|].
  rewrite IH. f_equal.
  apply forallb_filter_id. apply forallb_forall. intros x Hx.
  apply negb_true_iff, text_eqb_neq. intros ->. contradiction.
Qed.

(** The keys after the loop: those there before, then the new names in
    the order in which they are first met. *)
Lemma loop_keys (ms : list groups) (acc : options) :
  Dict.keys (fold_left record_match ms acc) =
  Dict.keys acc ++
  filter (absent (Dict.keys acc)) (first_occurrences (map group1 ms)).
Proof.
  revert acc. induction ms as [|g ms IH]; intros acc; simpl.
  - now rewrite app_nil_r.
  - rewrite IH. unfold record_match at 1 2. rewrite keys_set.
    unfold Dict.mem.
    destruct (Dict.get (group1 g) acc) as [e|] eqn:E.
    + assert (Hin : In (group1 g) (Dict.keys acc))
        by (apply get_some_in_keys; eauto).
      apply absent_false in Hin. rewrite Hin. f_equal.
      rewrite filter_twice. apply filter_ext. intros x.
      destruct (text_eqb x (group1 g)) eqn:Ex;
        [|now rewrite andb_true_r].
      apply text_eqb_eq in Ex. subst x. now rewrite Hin.
    + apply get_none_not_in_keys in E. apply absent_true in E.
      rewrite E. rewrite <- app_assoc. simpl. do 2 f_equal.
      rewrite filter_twice. apply filter_ext. intros x.
      unfold absent. rewrite existsb_app. simpl.
      now rewrite orb_false_r, negb_orb.
Qed.

(** The entry under a key after the loop: that of the last match with
    that name, or the one there before. *)
Lemma loop_get (ms : list groups) (acc : options) (k : text) :
  Dict.get k (fold_left record_match ms acc) =
  match last_match k ms with
  | Some g => Some (entry_of g)
  | None => Dict.get k acc
  end.
Proof.
  unfold last_match.
  induction ms as [|g ms IH] using rev_ind; [reflexivity|].
  rewrite fold_left_app, rev_app_distr. simpl.
  unfold record_match at 1.
  destruct (text_eqb k (group1 g)) eqn:E.
  - apply text_eqb_eq in E. subst k. apply get_set_same.
  - apply text_eqb_neq in E. rewrite get_set_other by congruence.
    exact IH.
Qed.

Lemma loop_NoDup (ms : list groups) (acc : options) :
  NoDup (Dict.keys acc) ->
  NoDup (Dict.keys (fold_left record_match ms acc)).
Proof.
  revert acc. induction ms as [|g ms IH]; intros acc Hnd; simpl;
    [assumption|].
  apply IH. now apply NoDup_keys_set.
Qed.


Lemma last_match_some (k : text) (ms : list groups) (g : groups) :
  last_match k ms = Some g -> In g ms /\ group1 g = k.
Proof.
  unfold last_match. intros Hf. apply find_some in Hf as [Hin E].
  apply in_rev in Hin. apply text_eqb_eq in E. now split.
Qed.

End ScannerFacts.


(** ** The monad and the file system *)

Section OsFacts.
Context {H : Host}.

Lemma bind_ok (A B : Type) (m : M A) (k : A -> M B) f b f' :
  bind m k f = (Ok b, f') ->
  exists a f1, m f = (Ok a, f1) /\ k a f1 = (Ok b, f').
Proof.
  unfold bind. destruct (m f) as [[a|e] f1]; [eauto | discriminate].
Qed.

Lemma bind_step (A B : Type) (m : M A) (k : A -> M B) f a f1 :
  m f = (Ok a, f1) -> bind m k f = k a f1.
Proof. unfold bind. now intros ->. Qed.

Lemma bind_raise (A B : Type) (m : M A) (k : A -> M B) f e f1 :
  m f = (Raise e, f1) -> bind m k f = (Raise e, f1).
Proof. unfold bind. now intros ->. Qed.

Lemma is_dir_update (p : path) (f : fs) :
  is_dir (update p (Some Dir) f) p = true.
Proof.
  unfold is_dir, lookup, update. destruct p; [reflexivity|].
  now rewrite path_eqb_refl.
Qed.

Lemma update_other (p q : path) (n : option node) (f : fs) :
  q <> p -> update p n f q = f q.
Proof.
  intros Hne. unfold update. destruct (path_eqb q p) eqn:E; [|reflexivity].
  apply path_eqb_eq in E. contradiction.
Qed.


Lemma sys_frame (A : Type) (c : syscall) (run : M A) f r f' (P : fs -> Prop) :
  sys c run f = (r, f') -> P f ->
  (forall r' f'', run f = (r', f'') -> P f'') -> P f'.
Proof.
  unfold sys. destruct (fault c f).
  - intros [= <- <-]. auto.
  - intros E _ Hrun. eauto.
Qed.

(** [mkdir] touches the path it is given and nothing else. *)
Lemma mkdir_frame (p : path) f r f' (q : path) :
  mkdir p f = (r, f') -> q <> p -> f' q = f q.
Proof.
  intros Hm Hne. revert Hm. unfold mkdir, sys.
  destruct (fault (Mkdir p) f); [now intros [= <- <-]|].
  destruct (lookup f p); [now intros [= <- <-]|].
  destruct (lookup f (dirname p)) as [[|c]|]; intros [= <- <-];
    try reflexivity.
  now apply update_other.
Qed.

Lemma mkdir_ok (p : path) f f' :
  mkdir p f = (Ok tt, f') -> f' = update p (Some Dir) f.
Proof.
  unfold mkdir, sys.
  destruct (fault (Mkdir p) f); [discriminate|].
  destruct (lookup f p); [discriminate|].
  destruct (lookup f (dirname p)) as [[|c]|]; intros [= <-]; reflexivity.
Qed.

Lemma makedirs_stages (name : path) (exist_ok : bool) (f : fs) :
  makedirs name exist_ok f =
  match makedirs_parents name exist_ok f with
  | (Raise e, f') => (Raise e, f')
  | (Ok _, f') => makedirs_leaf name exist_ok f'
  end.
Proof. destruct name as [|c [|c' name]]; reflexivity. Qed.

(** When [makedirs] returns, the directory is there. *)
Lemma makedirs_ok_is_dir (name : path) (exist_ok : bool) f f' :
  makedirs name exist_ok f = (Ok tt, f') -> is_dir f' name = true.
Proof.
  rewrite makedirs_stages.
  destruct (makedirs_parents name exist_ok f) as [[[]|e] f1];
    [|discriminate].
  unfold makedirs_leaf. destruct (mkdir name f1) as [[[]|e] f2] eqn:E.
  - intros [= <-]. apply mkdir_ok in E. subst. apply is_dir_update.
  - destruct (is_OSError e && exist_ok && is_dir f2 name) eqn:C;
      [|discriminate].
    intros [= <-]. apply andb_true_iff in C. tauto.
Qed.

(** [makedirs] touches the path it is given and its ancestors, and
    nothing else. *)
Lemma makedirs_frame (name : path) (exist_ok : bool) f r f' (q : path) :
  makedirs name exist_ok f = (r, f') ->
  (forall l, name <> l ++ q) -> f' q = f q.
Proof.
  revert f r f'. induction name as [|c name IH]; intros f r f' Hm Hq.
  - rewrite makedirs_stages in Hm. simpl in Hm.
    unfold makedirs_leaf in Hm.
    destruct (mkdir [] f) as [[[]|e] f2] eqn:E.
    + injection Hm as <- <-. eapply mkdir_frame; [exact E|].
      intros ->. now apply (Hq []).
    + assert (f2 q = f q) as <-.
      { eapply mkdir_frame; [exact E|]. intros ->. now apply (Hq []). }
      destruct (is_OSError e && exist_ok && is_dir f2 []);
        now injection Hm as <- <-.
  - rewrite makedirs_stages in Hm.
    assert (Hparents : forall r1 f1,
               makedirs_parents (c :: name) exist_ok f = (r1, f1) ->
               f1 q = f q).
    { intros r1 f1. unfold makedirs_parents.
      destruct name as [|c' name]; [now intros [= <- <-]|].
      destruct (exists_ f (c' :: name)); [now intros [= <- <-]|].
      destruct (makedirs (c' :: name) exist_ok f) as [[[]|e] f0] eqn:E.
      - intros [= <- <-]. eapply IH; [exact E|].
        intros l El. apply (Hq (c :: l)). simpl. now rewrite El.
      - assert (f0 q = f q) as <-.
        { eapply IH; [exact E|].
          intros l El. apply (Hq (c :: l)). simpl. now rewrite El. }
        destruct (is_FileExistsError e); now intros [= <- <-]. }
    destruct (makedirs_parents (c :: name) exist_ok f) as [[[]|e] f1] eqn:E1.
    + rewrite <- (Hparents _ _ eq_refl).
      unfold makedirs_leaf in Hm.
      assert (Hne : q <> c :: name) by (intros ->; now apply (Hq [])).
      destruct (mkdir (c :: name) f1) as [[[]|e] f2] eqn:E2.
      * injection Hm as <- <-. eapply mkdir_frame; eauto.
      * assert (f2 q = f1 q) as <- by (eapply mkdir_frame; eauto).
        destruct (is_OSError e && exist_ok && is_dir f2 (c :: name));
          now injection Hm as <- <-.
    + injection Hm as <- <-. now apply (Hparents _ _ eq_refl).
Qed.

Lemma within_below (p l : path) : within p (l ++ p) = true.
Proof.
  unfold within. rewrite length_app.
  replace (List.length l + List.length p - List.length p)
    with (List.length l + 0) by lia.
  rewrite skipn_app, Nat.add_0_r, skipn_all.
  replace (List.length l - List.length l) with 0 by lia.
  simpl. apply path_eqb_refl.
Qed.

Lemma app_cons_not_tail (A : Type) (p l below : list A) (name : A) :
  p <> l ++ below ++ name :: p.
Proof.
  intros E. apply (f_equal (@List.length A)) in E.
  rewrite !length_app in E. simpl in E. lia.
Qed.

Lemma rmtree_ok (p : path) f f' :
  rmtree p f = (Ok tt, f') -> f' = remove_tree p f.
Proof.
  unfold rmtree. destruct (fault (Rmtree p) f); [discriminate|].
  destruct (lookup f p) as [[|c]|]; intros [= <-]; reflexivity.
Qed.

(** A directory that was removed and made again is empty. *)
Lemma remade_dir_empty (p : path) f f1 f' :
  rmtree p f = (Ok tt, f1) -> makedirs p false f1 = (Ok tt, f') ->
  is_dir f' p = true /\ dir_empty f' p.
Proof.
  intros Hr Hm. split; [eapply makedirs_ok_is_dir; eauto|].
  intros name below.
  rewrite (makedirs_frame _ _ _ _ _ _ Hm)
    by (intros l; apply app_cons_not_tail).
  apply rmtree_ok in Hr. subst f1. unfold remove_tree.
  change (name :: p) with ([name] ++ p). rewrite app_assoc.
  now rewrite within_below.
Qed.

End OsFacts.

(* ================================================================= *)
(** * The option scanner *)

Lemma ascii_tables_laws : UnicodeLaws ascii_tables.
Proof.
  split; try reflexivity.
  intros c. unfold isspace, isalnum, ascii_tables, in_range.
  rewrite !orb_true_iff, !orb_false_iff, !andb_true_iff, !andb_false_iff,
    !N.leb_le, !N.leb_gt.
  lia.
Qed.

(** Try the pattern at every position of a given stretch of a given
    text. *)
Ltac try_all_positions :=
  lazymatch goal with
  | |- no_declaration_starts ?s _ =>
      let s' := eval vm_compute in s in change s with s'
  end;
  apply (no_match_no_declaration (L := ascii_tables_laws));
  let before := fresh "before" in
  let Hs := fresh "Hs" in
  intros before ? Hs ?;
  repeat (destruct before as [|? before];
          [simpl in Hs; subst; reflexivity
          |simpl in Hs; try discriminate Hs; injection Hs as <- Hs]);
  try (destruct before; discriminate Hs);
  try (symmetry in Hs; apply app_eq_nil in Hs; tauto).

Ltac check_layout :=
  cbn [valid_layout]; repeat split; try reflexivity; try_all_positions.

Lemma scenario_layout_valid :
  valid_layout (U := ascii_tables) Demo.scenario_layout.
Proof. unfold Demo.scenario_layout. check_layout. Qed.



(** The scenario of the specification: two declarations, FOO with ON and
    BAR with OFF, and what the scanner makes of them. *)
Example scan_scenario :
  scan_options (U := ascii_tables) Demo.scenario_text =
  [expected_entry Demo.foo; expected_entry Demo.bar].
Proof. reflexivity. Qed.




Section ScannerClaims.
Context {U : Unicode}.

(** For every text, whatever was matched: the keys are without
    repetition and in the order in which the matched names are first
    met, and the entry under a key is that of the last match with that
    name. *)
Lemma scan_options_by_matches (content : text) :
  let ms := finditer content in
  let found := scan_options content in
  NoDup (Dict.keys found) /\
  Dict.keys found = first_occurrences (map group1 ms) /\
  forall k, Dict.get k found = option_map entry_of (last_match k ms).
Proof.
  intros ms found. unfold found, scan_options. fold ms. repeat split.
  - apply loop_NoDup. constructor.
  - rewrite loop_keys. simpl.
    apply forallb_filter_id. apply forallb_forall. reflexivity.
  - intros k. rewrite loop_get.
    now destruct (last_match k ms).
Qed.










End ScannerClaims.




(** The same text under C9: one entry, the second declaration's. *)
Example scan_twice_declared :
  scan_options (U := ascii_tables) (layout_text Demo.twice_layout) =
  [expected_entry Demo.second_a].
Proof. reflexivity. Qed.

(** And so it is under any character tables that classify the characters
    of that text as the ASCII tables do. *)
Lemma scan_twice_declared_any_tables (U : Unicode) :
  agree_on U ascii_tables (layout_text Demo.twice_layout) ->
  scan_options (U := U) (layout_text Demo.twice_layout) =
  [expected_entry Demo.second_a].
Proof.
  intros Ha. now rewrite (scan_options_ext U ascii_tables _ Ha).
Qed.


(* ================================================================= *)
(** * The merge of [index] *)

Section MergeFacts.

Lemma get_app_absent (V : Type) (k : text) (l1 l2 : Dict.dict V) :
  ~ In k (Dict.keys l1) -> Dict.get k (l1 ++ l2) = Dict.get k l2.
Proof.
  induction l1 as [|[k' v'] l1 IH]; simpl; [reflexivity|].
  intros Hn. destruct (text_eqb k k') eqn:E.
  - apply text_eqb_eq in E. subst. exfalso. auto.
  - apply IH. auto.
Qed.

Lemma set_app_absent (V : Type) (k : text) (v e : V) (l1 l2 : Dict.dict V) :
  ~ In k (Dict.keys l1) ->
  Dict.set k v (l1 ++ (k, e) :: l2) = l1 ++ (k, v) :: l2.
Proof.
  induction l1 as [|[k' v'] l1 IH]; simpl.
  - now rewrite text_eqb_refl.
  - intros Hn. destruct (text_eqb k k') eqn:E.
    + apply text_eqb_eq in E. subst. exfalso. auto.
    + rewrite IH; auto.
Qed.

Lemma get_map_values (V W : Type) (h : text -> V -> W) (k : text)
    (l : Dict.dict V) :
  Dict.get k (map (fun kv => (fst kv, h (fst kv) (snd kv))) l) =
  option_map (h k) (Dict.get k l).
Proof.
  induction l as [|[k' v'] l IH]; simpl; [reflexivity|].
  destruct (text_eqb k k') eqn:E; [|exact IH].
  apply text_eqb_eq in E. now subst.
Qed.

Lemma keys_map_values (V W : Type) (h : text -> V -> W) (l : Dict.dict V) :
  Dict.keys (map (fun kv => (fst kv, h (fst kv) (snd kv))) l) = Dict.keys l.
Proof. unfold Dict.keys. rewrite map_map. reflexivity. Qed.

(** The loop, with the entries already visited in front. *)
Lemma merge_loop (saved : options) (todo visited : options) :
  NoDup (Dict.keys (visited ++ todo)) ->
  fold_left
    (fun acc key =>
       match Dict.get key saved with
       | Some s => set_value key (value s) acc
       | None => acc
       end)
    (Dict.keys todo)
    (map (shown_pair (Some saved)) visited ++ todo) =
  map (shown_pair (Some saved)) (visited ++ todo).
Proof.
  revert visited. induction todo as [|[k e] todo IH]; intros visited Hnd.
  - simpl. now rewrite !app_nil_r.
  - assert (Hk : ~ In k (Dict.keys (map (shown_pair (Some saved)) visited))).
    { unfold shown_pair. rewrite keys_map_values.
      unfold Dict.keys in Hnd. rewrite map_app in Hnd. simpl in Hnd.
      apply NoDup_remove_2 in Hnd. intros Hin. apply Hnd.
      apply in_or_app. now left. }
    assert (Hnext :
              map (shown_pair (Some saved)) visited ++
                shown_pair (Some saved) (k, e) :: todo =
              map (shown_pair (Some saved)) (visited ++ [(k, e)]) ++ todo).
    { rewrite map_app. simpl. now rewrite <- app_assoc. }
    replace (visited ++ (k, e) :: todo) with ((visited ++ [(k, e)]) ++ todo)
      in * by (now rewrite <- app_assoc).
    rewrite <- IH by exact Hnd.
    cbn [Dict.keys map fold_left fst]. fold (Dict.keys todo).
    f_equal. rewrite <- Hnext.
    change (shown_pair (Some saved) (k, e))
      with (k, overridden e (Dict.get k saved)).
    destruct (Dict.get k saved) as [s|]; [|reflexivity].
    unfold set_value. rewrite get_app_absent by exact Hk.
    cbn [Dict.get]. rewrite text_eqb_refl. now apply set_app_absent.
Qed.

Lemma shown_pair_none (opts : options) (saved : option options) :
  (forall k, snapshot_get k saved = None) ->
  map (shown_pair saved) opts = opts.
Proof.
  intros Hnone. rewrite <- (map_id opts) at 2. apply map_ext.
  intros [k e]. unfold shown_pair, shown_entry. simpl. now rewrite Hnone.
Qed.

(** What [index] shows, entry by entry. *)
Lemma displayed_map (opts : options) (saved : option options) :
  NoDup (Dict.keys opts) ->
  displayed opts saved = map (shown_pair saved) opts.
Proof.
  intros Hnd. destruct saved as [[|x s]|]; simpl.
  - now rewrite shown_pair_none.
  - exact (merge_loop (x :: s) opts [] Hnd).
  - now rewrite shown_pair_none.
Qed.

Lemma displayed_descriptions (opts : options) (saved : option options) :
  NoDup (Dict.keys opts) ->
  map (fun kv => (fst kv, description (snd kv))) (displayed opts saved) =
  map (fun kv => (fst kv, description (snd kv))) opts.
Proof.
  intros Hnd. rewrite displayed_map by exact Hnd. rewrite map_map.
  apply map_ext. intros [k e]. unfold shown_pair, shown_entry. simpl.
  now destruct (snapshot_get k saved).
Qed.

End MergeFacts.

(** The merge by itself: an identifier found by the scanner and present
    in the snapshot gets the snapshot's value and keeps the scanner's
    description; one that only the scanner found keeps its entry; one
    that only the snapshot holds does not appear. *)
Lemma displayed_policy (opts : options) (saved : option options) :
  NoDup (Dict.keys opts) ->
  let shown := displayed opts saved in
  Dict.keys shown = Dict.keys opts /\
  (forall k e s,
      Dict.get k opts = Some e -> snapshot_get k saved = Some s ->
      Dict.get k shown =
      Some {| description := description e; value := value s |}) /\
  (forall k e,
      Dict.get k opts = Some e -> snapshot_get k saved = None ->
      Dict.get k shown = Some e) /\
  (forall k, Dict.get k opts = None -> Dict.get k shown = None).
Proof.
  intros Hnd shown. unfold shown. rewrite displayed_map by exact Hnd.
  unfold shown_pair. repeat split.
  - apply (keys_map_values _ _ (shown_entry saved)).
  - intros k e s He Hs.
    rewrite (get_map_values _ _ (shown_entry saved)), He. simpl.
    unfold shown_entry. now rewrite Hs.
  - intros k e He Hs.
    rewrite (get_map_values _ _ (shown_entry saved)), He. simpl.
    unfold shown_entry. now rewrite Hs.
  - intros k He. now rewrite (get_map_values _ _ (shown_entry saved)), He.
Qed.

(** The example of the specification: A true and B false from the
    scanner, A false in the snapshot. *)
Lemma displayed_policy_example :
  NoDup (Dict.keys Demo.ab_scanned) /\
  Dict.get (Demo.lit "A") (displayed Demo.ab_scanned (Some Demo.a_saved)) =
    Some (Entry (Demo.lit "a switch") false) /\
  Dict.get (Demo.lit "B") (displayed Demo.ab_scanned (Some Demo.a_saved)) =
    Some (Entry (Demo.lit "b switch") false).
Proof.
  assert (Hnd : NoDup (Dict.keys Demo.ab_scanned))
    by (repeat constructor; simpl; intuition discriminate).
  split; [exact Hnd|].
  destruct (displayed_policy Demo.ab_scanned (Some Demo.a_saved) Hnd)
    as (_ & Hboth & Honly & _).
  split.
  - exact (Hboth (Demo.lit "A") _ _ eq_refl eq_refl).
  - exact (Honly (Demo.lit "B") _ eq_refl eq_refl).
Defined.

Example index_merge_scenario :
  displayed Demo.ab_scanned (Some Demo.a_saved) =
  [(Demo.lit "A", Entry (Demo.lit "a switch") false);
   (Demo.lit "B", Entry (Demo.lit "b switch") false)].
Proof. reflexivity. Qed.


Section IndexFacts.
Context {U : Unicode} {H : Host}.

Lemma read_file_ok (p : path) f content f' :
  read_file p f = (Ok content, f') -> f' = f.
Proof.
  unfold read_file, sys. destruct (fault (OpenRead p) f); [discriminate|].
  destruct (lookup f p) as [[|c]|]; intros [= <-]; congruence.
Qed.

Lemma read_cmake_options_ok f opts f' :
  read_cmake_options f = (Ok opts, f') ->
  exists content,
    read_file (join get_project_root (cps "CMakeLists.txt")) f = (Ok content, f) /\
    opts = scan_options content /\ f' = f.
Proof.
  unfold read_cmake_options. intros Hr.
  apply bind_ok in Hr as (content & f1 & Hread & Hret).
  injection Hret as <- <-.
  pose proof (read_file_ok _ _ _ _ Hread) as ->. eauto.
Qed.

(** [get_build_dir] returns the one path, and the directory is there. *)
Lemma get_build_dir_ok f p f' :
  get_build_dir f = (Ok p, f') ->
  p = build_dir_path /\ is_dir f' build_dir_path = true /\
  makedirs build_dir_path true f = (Ok tt, f').
Proof.
  unfold get_build_dir. intros Hg.
  apply bind_ok in Hg as ([] & f1 & Hm & Hret).
  injection Hret as <- <-.
  repeat split; [|exact Hm]. eapply makedirs_ok_is_dir. exact Hm.
Qed.

(** What [index] returns, step by step. *)
Lemma index_ok f r f' :
  index f = (Ok r, f') ->
  exists content saved f2,
    read_file (join get_project_root (cps "CMakeLists.txt")) f = (Ok content, f) /\
    load_saved_options f = (Ok saved, f2) /\
    get_build_dir f2 = (Ok build_dir_path, f') /\
    r = render_template (displayed (scan_options content) saved)
          {| bs_exists := exists_ f' build_dir_path; bs_path := build_dir_path |}.
Proof.
  unfold index. intros Hi.
  apply bind_ok in Hi as (opts & f1 & Hopts & Hi).
  apply read_cmake_options_ok in Hopts as (content & Hread & -> & ->).
  apply bind_ok in Hi as (saved & f2 & Hsaved & Hi).
  apply bind_ok in Hi as (bd & f3 & Hbd & Hi).
  pose proof (get_build_dir_ok _ _ _ Hbd) as (-> & _ & _).
  apply bind_ok in Hi as (found & f4 & Hex & Hi).
  unfold os_path_exists in Hex. injection Hex as <- <-.
  injection Hi as <- <-.
  exists content, saved, f2. auto.
Qed.

Lemma read_file_fs (p : path) f r f' : read_file p f = (r, f') -> f' = f.
Proof.
  unfold read_file, sys. destruct (fault (OpenRead p) f);
    [now intros [= _ <-]|].
  destruct (lookup f p) as [[|c]|]; now intros [= _ <-].
Qed.

(** [load_saved_options] only reads. *)
Lemma load_saved_options_fs f r f' :
  load_saved_options f = (r, f') -> f' = f.
Proof.
  unfold load_saved_options, bind, os_path_exists.
  destruct (exists_ f config_path); [|now intros [= _ <-]].
  destruct (read_file config_path f) as [[content|e] f1] eqn:E;
    apply read_file_fs in E; subst f1; [|now intros [= _ <-]].
  destruct (yaml_safe_load content); now intros [= _ <-].
Qed.

End IndexFacts.

(** C10.  Whatever [index] hands to the template has the scanner's
    identifiers with the scanner's descriptions: the merge with the
    snapshot writes the value field only, and a description stored in the
    snapshot is never shown. *)
Theorem index_shows_scanner_descriptions {U : Unicode} {H : Host}
    (f : fs) (shown : options) (status : build_status) (f' : fs) :
  index f = (Ok (render_template shown status), f') ->
  exists content,
    read_file (join get_project_root (cps "CMakeLists.txt")) f = (Ok content, f) /\
    map (fun kv => (fst kv, description (snd kv))) shown =
    map (fun kv => (fst kv, description (snd kv))) (scan_options content) /\
    forall k e, Dict.get k (scan_options content) = Some e ->
                exists e', Dict.get k shown = Some e' /\
                           description e' = description e.
Proof.
  intros Hi. apply index_ok in Hi as (content & saved & f2 & Hread & _ & _ & Hr).
  injection Hr as -> _.
  assert (Hnd : NoDup (Dict.keys (scan_options content)))
    by (apply loop_NoDup; constructor).
  exists content. split; [exact Hread|]. split.
  - now apply displayed_descriptions.
  - intros k e He. rewrite displayed_map by exact Hnd.
    unfold shown_pair.
    rewrite (get_map_values _ _ (shown_entry saved)), He. simpl.
    eexists. split; [reflexivity|].
    unfold shown_entry. now destruct (snapshot_get k saved).
Qed.

(** FOO is saved as false under another description; the page shows it
    false under the description of the CMakeLists.txt. *)
Lemma index_shows_scanner_descriptions_example :
  let page := index (U := ascii_tables) (H := Demo.healthy) Demo.with_snapshot in
  fst page =
    Ok (render_template
          [(Demo.lit "FOO", Entry (Demo.lit "enable foo") false);
           (Demo.lit "BAR", Entry (Demo.lit "enable bar") false)]
          (BuildStatus true Demo.the_build_dir)) /\
  exists content,
    read_file (H := Demo.healthy)
      (join (get_project_root (H := Demo.healthy)) (cps "CMakeLists.txt"))
      Demo.with_snapshot = (Ok content, Demo.with_snapshot) /\
    content = Demo.scenario_text.
Proof.
  intros page. split; [reflexivity|].
  destruct (index_shows_scanner_descriptions (U := ascii_tables)
              (H := Demo.healthy) Demo.with_snapshot
              [(Demo.lit "FOO", Entry (Demo.lit "enable foo") false);
               (Demo.lit "BAR", Entry (Demo.lit "enable bar") false)]
              (BuildStatus true Demo.the_build_dir) (snd page) eq_refl)
    as (content & Hread & _).
  exists content. split; [exact Hread|].
  vm_compute in Hread. now injection Hread as <-.
Defined.

(* ================================================================= *)
(** * The argument list of [apply] *)

Lemma fold_append_map (A B : Type) (g : A -> B) (l : list A) (start : list B) :
  fold_left (fun acc a => acc ++ [g a]) l start = start ++ map g l.
Proof.
  revert start. induction l as [|a l IH]; intros start; simpl.
  - now rewrite app_nil_r.
  - rewrite IH. now rewrite <- app_assoc.
Qed.

(** The list that the loop of [apply] builds: [cmake], the project path,
    and then one flag [-D<identifier>=ON] or [-D<identifier>=OFF] for each
    option of the mapping, in the mapping's order. *)
Lemma cmake_cmd_flags {H : Host} (project_dir : path) (opts : options) :
  cmake_cmd project_dir opts =
  cps "cmake" :: path_str project_dir ::
  map (fun kv =>
         cps "-D" ++ fst kv ++ cps "=" ++
         (if value (snd kv) then cps "ON" else cps "OFF"))
      opts.
Proof.
  unfold cmake_cmd. rewrite (fold_append_map _ _ (fun kv => define_flag (fst kv) (snd kv))).
  reflexivity.
Qed.

(** The scenario of the specification: FOO set to false. *)
Example apply_foo_off {H : Host} (project_dir : path) (descr : text) :
  In (cps "-DFOO=OFF") (cmake_cmd project_dir [(cps "FOO", Entry descr false)]).
Proof. simpl. auto. Qed.


(* ================================================================= *)
(** * The stream of [build] *)

(** C5.  [build] answers with the generator, and when the child process
    of the generator was started and ran to its end, the stream is the
    lines of the process followed by one sentinel and nothing more: the
    success sentinel for exit status zero, the failure sentinel
    otherwise. *)
Theorem build_stream_ends_with_sentinel {H : Host}
    (f f1 : fs) (p : process) :
  get_build_dir f = (Ok build_dir_path, f1) ->
  popen build_cmd build_dir_path f1 = Ok p ->
  (forall f0, build f0 = (Ok (Response generate), f0)) /\
  generate f =
    (Stream (stdout p ++
             [if (returncode p =? 0)%Z then success_sentinel
              else failure_sentinel])
            None,
     fs_after p).
Proof.
  intros Hbd Hp. split; [reflexivity|].
  unfold generate. rewrite Hbd. unfold run_process. now rewrite Hp.
Qed.

(** A build that exits with status 2, and one that exits with 0. *)
Lemma build_stream_ends_with_sentinel_example :
  chunks (fst (generate (H := Demo.failing_build) Demo.checkout)) =
    [Demo.lit "-- Configuring done" ++ [newline];
     Demo.lit "-- Generating done" ++ [newline];
     failure_sentinel] /\
  chunks (fst (generate (H := Demo.healthy) Demo.checkout)) =
    [Demo.lit "-- Configuring done" ++ [newline];
     Demo.lit "-- Generating done" ++ [newline];
     success_sentinel].
Proof.
  split.
  - destruct (build_stream_ends_with_sentinel (H := Demo.failing_build)
                Demo.checkout
                (snd (get_build_dir (H := Demo.failing_build) Demo.checkout))
                (Process
                   [Demo.lit "-- Configuring done" ++ [newline];
                    Demo.lit "-- Generating done" ++ [newline]]
                   2
                   (update (Demo.lit "CMakeCache.txt" :: Demo.the_build_dir)
                      (Some (File []))
                      (snd (get_build_dir (H := Demo.failing_build)
                              Demo.checkout))))
                eq_refl eq_refl) as [_ ->].
    reflexivity.
  - destruct (build_stream_ends_with_sentinel (H := Demo.healthy)
                Demo.checkout
                (snd (get_build_dir (H := Demo.healthy) Demo.checkout))
                (Process
                   [Demo.lit "-- Configuring done" ++ [newline];
                    Demo.lit "-- Generating done" ++ [newline]]
                   0
                   (update (Demo.lit "CMakeCache.txt" :: Demo.the_build_dir)
                      (Some (File []))
                      (snd (get_build_dir (H := Demo.healthy) Demo.checkout))))
                eq_refl eq_refl) as [_ ->].
    reflexivity.
Defined.

(* ================================================================= *)
(** * The settings store *)

Section StoreFacts.
Context {H : Host}.

Lemma write_file_ok (p : path) (content : text) f f' :
  write_file p content f = (Ok tt, f') ->
  p <> [] /\ f' = update p (Some (File content)) f.
Proof.
  unfold write_file, sys. destruct (fault (OpenWrite p) f); [discriminate|].
  destruct p as [|c p]; [discriminate|].
  destruct (lookup f (c :: p)) as [[|old]|];
    try discriminate;
    destruct (lookup f (dirname (c :: p))) as [[|x]|];
    intros [= <-]; (split; [discriminate | reflexivity]).
Qed.

Lemma lookup_written (p : path) (content : text) (f : fs) :
  p <> [] -> lookup (update p (Some (File content)) f) p = Some (File content).
Proof.
  intros Hne. destruct p; [contradiction|]. unfold lookup, update.
  now rewrite path_eqb_refl.
Qed.

(** After a save, [load_saved_options] finds the file and hands its
    content, the dump of the mapping, to the YAML loader. *)
Lemma load_after_save (opts : options) f f1 :
  save_cmake_options opts f = (Ok tt, f1) ->
  fault (OpenRead config_path) f1 = None ->
  load_saved_options f1 =
  match yaml_safe_load (yaml_dump opts) with
  | Ok saved => (Ok saved, f1)
  | Raise e => (Raise e, f1)
  end.
Proof.
  unfold save_cmake_options. intros Hw Hfault.
  apply write_file_ok in Hw as [Hne Hf1].
  assert (Hfile : lookup f1 config_path = Some (File (yaml_dump opts)))
    by (rewrite Hf1; now apply lookup_written).
  assert (Hex : os_path_exists config_path f1 = (Ok true, f1))
    by (unfold os_path_exists, exists_; now rewrite Hfile).
  assert (Hread : read_file config_path f1 = (Ok (yaml_dump opts), f1))
    by (unfold read_file, sys; now rewrite Hfault, Hfile).
  unfold load_saved_options.
  rewrite (bind_step _ _ _ _ _ _ _ Hex), (bind_step _ _ _ _ _ _ _ Hread).
  now destruct (yaml_safe_load (yaml_dump opts)).
Qed.

End StoreFacts.


(* ================================================================= *)
(** * The build directory *)

Section CleanFacts.
Context {H : Host}.

Lemma try_except_ok (A : Type) (m : M A) (handler : exn -> M A) f a f' :
  m f = (Ok a, f') -> try_except m handler f = (Ok a, f').
Proof. unfold try_except. now intros ->. Qed.

Lemma try_except_raise (A : Type) (m : M A) (handler : exn -> M A) f e f' :
  m f = (Raise e, f') -> try_except m handler f = handler e f'.
Proof. unfold try_except. now intros ->. Qed.

(** The three ways in which [clean] returns once the build directory
    is resolved. *)
Lemma clean_cases f f1 :
  get_build_dir f = (Ok build_dir_path, f1) ->
  (exists f2 f3,
      rmtree build_dir_path f1 = (Ok tt, f2) /\
      makedirs build_dir_path false f2 = (Ok tt, f3) /\
      clean f = (Ok cleaned, f3)) \/
  (exists e f2,
      rmtree build_dir_path f1 = (Raise e, f2) /\
      clean f = (Ok (not_cleaned e), f2)) \/
  (exists e f2 f3,
      rmtree build_dir_path f1 = (Ok tt, f2) /\
      makedirs build_dir_path false f2 = (Raise e, f3) /\
      clean f = (Ok (not_cleaned e), f3)).
Proof.
  intros Hbd. unfold clean. rewrite (bind_step _ _ _ _ _ _ _ Hbd).
  destruct (rmtree build_dir_path f1) as [[[]|e] f2] eqn:Hrm.
  - destruct (makedirs build_dir_path false f2) as [[[]|e] f3] eqn:Hmk.
    + left. exists f2, f3. split; [reflexivity|]. split; [exact Hmk|].
      apply try_except_ok.
      now rewrite (bind_step _ _ _ _ _ _ _ Hrm), (bind_step _ _ _ _ _ _ _ Hmk).
    + right. right. exists e, f2, f3.
      split; [reflexivity|]. split; [exact Hmk|].
      erewrite try_except_raise; [reflexivity|].
      now rewrite (bind_step _ _ _ _ _ _ _ Hrm), (bind_raise _ _ _ _ _ _ _ Hmk).
  - right. left. exists e, f2. split; [reflexivity|].
    erewrite try_except_raise; [reflexivity|].
    now rewrite (bind_raise _ _ _ _ _ _ _ Hrm).
Qed.

Lemma clean_resolves f r f' :
  clean f = (Ok r, f') ->
  exists f1, get_build_dir f = (Ok build_dir_path, f1).
Proof.
  unfold clean. intros Hc. apply bind_ok in Hc as (bd & f1 & Hbd & _).
  pose proof (get_build_dir_ok _ _ _ Hbd) as (-> & _). eauto.
Qed.

Lemma clean_success f r f' :
  clean f = (Ok r, f') -> reports_success r = true ->
  r = cleaned /\ is_dir f' build_dir_path = true /\
  dir_empty f' build_dir_path.
Proof.
  intros Hc Hs. destruct (clean_resolves _ _ _ Hc) as [f1 Hbd].
  destruct (clean_cases _ _ Hbd)
    as [(f2 & f3 & Hrm & Hmk & E)|[(e & f2 & _ & E)|(e & f2 & f3 & _ & _ & E)]];
    rewrite E in Hc; injection Hc as <- <-; try discriminate Hs.
  split; [reflexivity|]. eapply remade_dir_empty; eauto.
Qed.

End CleanFacts.

(** C7.  When [clean] succeeds, the build directory is there, nothing is
    in it, and its path is the one that [get_build_dir] gave before and
    gives after; when the removal fails, [clean] returns a result of
    status error that carries the message, and raises nothing. *)
Theorem clean_leaves_empty_build_dir {H : Host} (f : fs) :
  (forall f',
      clean f = (Ok cleaned, f') ->
      (exists f1, get_build_dir f = (Ok build_dir_path, f1)) /\
      is_dir f' build_dir_path = true /\
      dir_empty f' build_dir_path) /\
  (forall f1 e f2,
      get_build_dir f = (Ok build_dir_path, f1) ->
      rmtree build_dir_path f1 = (Raise e, f2) ->
      clean f = (Ok (not_cleaned e), f2)) /\
  (forall g p g', get_build_dir g = (Ok p, g') -> p = build_dir_path).
Proof.
  repeat split.
  - eapply clean_resolves; eauto.
  - eapply clean_success; eauto.
  - eapply clean_success; eauto.
  - intros f1 e f2 Hbd Hrm.
    destruct (clean_cases _ _ Hbd)
      as [(g2 & g3 & Hrm' & _)|[(e' & g2 & Hrm' & E)|(e' & g2 & g3 & Hrm' & _)]];
      rewrite Hrm in Hrm'; try discriminate.
    now injection Hrm' as <- <-.
  - intros g p g' Hg. now apply get_build_dir_ok in Hg.
Qed.

(** A build directory with a stale object file is cleaned; a locked one
    is not, and the refusal comes back as the message. *)
Lemma clean_leaves_empty_build_dir_example :
  (is_dir (snd (clean (H := Demo.healthy) Demo.with_build_dir))
          Demo.the_build_dir = true /\
   dir_empty (snd (clean (H := Demo.healthy) Demo.with_build_dir))
          Demo.the_build_dir) /\
  fst (clean (H := Demo.locked_dir) Demo.with_build_dir) =
    Ok (jsonify [(cps "status", cps "error"); (cps "message", Demo.lit "locked")]).
Proof.
  split.
  - destruct (clean_leaves_empty_build_dir (H := Demo.healthy)
                Demo.with_build_dir) as (Hok & _ & _).
    destruct (Hok (snd (clean (H := Demo.healthy) Demo.with_build_dir)) eq_refl)
      as (_ & Hdir & Hempty).
    split; [exact Hdir | exact Hempty].
  - destruct (clean_leaves_empty_build_dir (H := Demo.locked_dir)
                Demo.with_build_dir) as (_ & Hfail & _).
    rewrite (Hfail Demo.with_build_dir Demo.locked Demo.with_build_dir
               eq_refl eq_refl).
    reflexivity.
Defined.

Section HandlerFacts.
Context {U : Unicode} {H : Host}.


(** [save] writes the settings file and nothing else. *)
Lemma save_ok (opts : options) f r f' :
  save opts f = (Ok r, f') ->
  r = jsonify [(cps "status", cps "success")] /\
  f' = update config_path (Some (File (yaml_dump opts))) f.
Proof.
  unfold save. intros Hs. apply bind_ok in Hs as ([] & f1 & Hw & Hret).
  injection Hret as <- <-. unfold save_cmake_options in Hw.
  apply write_file_ok in Hw as [_ ->]. auto.
Qed.

(** What [apply] returns once the settings are saved and the build
    directory is resolved: the launch of the child decides, and a
    launch that raises is caught. *)
Lemma apply_outcome (opts : options) f f1 f2 :
  save_cmake_options opts f = (Ok tt, f1) ->
  get_build_dir f1 = (Ok build_dir_path, f2) ->
  apply opts f =
  match popen (cmake_cmd get_project_root opts) build_dir_path f2 with
  | Ok p =>
      (Ok (jsonify [(cps "status",
                     if (returncode p =? 0)%Z then cps "success" else cps "error");
                    (cps "output", List.concat (stdout p))]),
       fs_after p)
  | Raise e =>
      (Ok (jsonify [(cps "status", cps "error"); (cps "output", exn_str e)]), f2)
  end.
Proof.
  intros Hs Hbd. unfold apply.
  rewrite (bind_step _ _ _ _ _ _ _ Hs), (bind_step _ _ _ _ _ _ _ Hbd).
  unfold try_except, bind, run_process.
  destruct (popen (cmake_cmd get_project_root opts) build_dir_path f2)
    as [p|e]; [|reflexivity].
  unfold ret. rewrite (fold_append_map _ _ (fun line => line)), map_id.
  reflexivity.
Qed.

Lemma apply_ok (opts : options) f r f' :
  apply opts f = (Ok r, f') ->
  exists f1 f2,
    save_cmake_options opts f = (Ok tt, f1) /\
    get_build_dir f1 = (Ok build_dir_path, f2).
Proof.
  unfold apply. intros Ha.
  apply bind_ok in Ha as ([] & f1 & Hs & Ha).
  apply bind_ok in Ha as (bd & f2 & Hbd & _).
  pose proof (get_build_dir_ok _ _ _ Hbd) as (-> & _). eauto.
Qed.

(** A child that cannot be started ends the generator of [build] with
    the exception of the launch. *)
Lemma generate_launch_failure f f1 e :
  get_build_dir f = (Ok build_dir_path, f1) ->
  popen build_cmd build_dir_path f1 = Raise e ->
  generate f = (Stream [] (Some e), f1).
Proof.
  intros Hbd Hp. unfold generate. rewrite Hbd. unfold run_process.
  now rewrite Hp.
Qed.

(** When the generator runs to its end, the build directory is there. *)
Lemma generate_resolves f cs f' :
  child_keeps_cwd ->
  generate f = (Stream cs None, f') -> is_dir f' build_dir_path = true.
Proof.
  intros Hkeep. unfold generate.
  destruct (get_build_dir f) as [[bd|e] f1] eqn:Hbd; [|discriminate].
  pose proof (get_build_dir_ok _ _ _ Hbd) as (-> & Hdir & _).
  unfold run_process.
  destruct (popen build_cmd build_dir_path f1) as [p|e] eqn:Hp;
    [|discriminate].
  intros [= _ <-]. eapply Hkeep; eauto.
Qed.

End HandlerFacts.





(* ================================================================= *)
(** * A child process that cannot be started *)

(** C2 at a machine without [cmake].  [apply] catches the exception of
    the launch and answers with status error and the message.  [build]
    returns its response, and the generator behind it, which has no
    [try], is ended by that exception: no chunk, no sentinel, no error
    status. *)
Lemma build_launch_failure_escapes :
  fst (apply (H := Demo.without_cmake) Demo.foo_off Demo.checkout) =
    Ok (jsonify [(cps "status", cps "error");
                 (cps "output", Demo.lit "No such file or directory: cmake")]) /\
  fst (build (H := Demo.without_cmake) Demo.checkout) =
    Ok (Response (generate (H := Demo.without_cmake))) /\
  fst (generate (H := Demo.without_cmake) Demo.checkout) =
    Stream [] (Some Demo.cmake_missing).
Proof. repeat split. Qed.


(* ================================================================= *)
(** * The page of [index] and the command of [apply] *)

(** C3.  Every page that [index] returns displays the merge of what the
    scanner found in the CMakeLists.txt with what [load_saved_options]
    returned: the identifiers are the scanner's, in the scanner's order;
    an identifier present in both has the snapshot's value together with
    the scanner's description; an identifier that only the scanner found
    keeps its default; an identifier that only the snapshot holds is not
    displayed. *)
Theorem index_merge_policy {U : Unicode} {H : Host}
    (f : fs) (shown : options) (status : build_status) (f' : fs) :
  index f = (Ok (render_template shown status), f') ->
  exists content saved,
    read_file (join get_project_root (cps "CMakeLists.txt")) f = (Ok content, f) /\
    load_saved_options f = (Ok saved, f) /\
    Dict.keys shown = Dict.keys (scan_options content) /\
    (forall k e s,
        Dict.get k (scan_options content) = Some e ->
        snapshot_get k saved = Some s ->
        Dict.get k shown =
        Some {| description := description e; value := value s |}) /\
    (forall k e,
        Dict.get k (scan_options content) = Some e ->
        snapshot_get k saved = None ->
        Dict.get k shown = Some e) /\
    (forall k,
        Dict.get k (scan_options content) = None ->
        Dict.get k shown = None).
Proof.
  intros Hi.
  apply index_ok in Hi as (content & saved & f2 & Hread & Hload & _ & Hr).
  pose proof (load_saved_options_fs _ _ _ Hload) as ->.
  assert (Hshown : shown = displayed (scan_options content) saved)
    by (now injection Hr).
  subst shown. exists content, saved.
  split; [exact Hread|]. split; [exact Hload|].
  apply displayed_policy. apply loop_NoDup. constructor.
Qed.

(** The example of the specification, as a project: the CMakeLists.txt
    declares A with ON and B with OFF, the settings file holds A as false
    (under another description).  The page shows A false and B false. *)
Lemma index_merge_policy_example :
  fst (index (U := ascii_tables) (H := Demo.healthy) ab_project) =
    Ok (render_template
          [(Demo.lit "A", Entry (Demo.lit "a switch") false);
           (Demo.lit "B", Entry (Demo.lit "b switch") false)]
          (BuildStatus true Demo.the_build_dir)) /\
  exists content saved,
    read_file (H := Demo.healthy)
      (join (get_project_root (H := Demo.healthy)) (cps "CMakeLists.txt"))
      ab_project = (Ok content, ab_project) /\
    load_saved_options (H := Demo.healthy) ab_project = (Ok saved, ab_project) /\
    content = ab_text /\ saved = Some Demo.a_saved.
Proof.
  split; [reflexivity|].
  destruct (index_merge_policy (U := ascii_tables) (H := Demo.healthy)
              ab_project
              [(Demo.lit "A", Entry (Demo.lit "a switch") false);
               (Demo.lit "B", Entry (Demo.lit "b switch") false)]
              (BuildStatus true Demo.the_build_dir)
              (snd (index (U := ascii_tables) (H := Demo.healthy) ab_project))
              eq_refl)
    as (content & saved & Hread & Hload & _).
  exists content, saved. split; [exact Hread|]. split; [exact Hload|].
  vm_compute in Hread. vm_compute in Hload.
  injection Hread as <-. injection Hload as <-. split; reflexivity.
Defined.

(** C4.  Once the settings are saved and the build directory is
    resolved, what [apply] does is to launch, in the build directory,
    the command made of [cmake], the source project path and exactly one
    flag [-D<identifier>=ON] or [-D<identifier>=OFF] for each option of
    the submitted mapping, in the mapping's order, ON for true and OFF
    for false; its answer and the file system it leaves are those of
    that launch. *)
Theorem apply_argument_list {H : Host} (opts : options) (f f1 f2 : fs) :
  save_cmake_options opts f = (Ok tt, f1) ->
  get_build_dir f1 = (Ok build_dir_path, f2) ->
  let argv :=
    cps "cmake" :: path_str get_project_root ::
    map (fun kv =>
           cps "-D" ++ fst kv ++ cps "=" ++
           (if value (snd kv) then cps "ON" else cps "OFF"))
        opts in
  List.length argv = 2 + List.length opts /\
  apply opts f =
  match popen argv build_dir_path f2 with
  | Ok p =>
      (Ok (jsonify [(cps "status",
                     if (returncode p =? 0)%Z then cps "success" else cps "error");
                    (cps "output", List.concat (stdout p))]),
       fs_after p)
  | Raise e =>
      (Ok (jsonify [(cps "status", cps "error"); (cps "output", exn_str e)]), f2)
  end.
Proof.
  intros Hs Hbd argv. split.
  - unfold argv. simpl. now rewrite length_map.
  - rewrite (apply_outcome _ _ _ _ Hs Hbd), cmake_cmd_flags. reflexivity.
Qed.

(** The scenario of the specification: FOO submitted as false, on a
    machine whose [cmake] prints its arguments.  The command launched is
    [cmake /home/dev/OmniRT -DFOO=OFF]. *)
Lemma apply_argument_list_example :
  let saved_fs :=
    snd (save_cmake_options (H := echoing) Demo.foo_off Demo.checkout) in
  let build_fs := snd (get_build_dir (H := echoing) saved_fs) in
  apply (H := echoing) Demo.foo_off Demo.checkout =
  match @popen echoing
          [Demo.lit "cmake"; Demo.lit "/home/dev/OmniRT"; Demo.lit "-DFOO=OFF"]
          Demo.the_build_dir build_fs with
  | Ok p =>
      (Ok (jsonify [(cps "status",
                     if (returncode p =? 0)%Z then cps "success" else cps "error");
                    (cps "output", List.concat (stdout p))]),
       fs_after p)
  | Raise e =>
      (Ok (jsonify [(cps "status", cps "error");
                    (cps "output", @exn_str echoing e)]), build_fs)
  end.
Proof.
  intros saved_fs build_fs.
  destruct (apply_argument_list (H := echoing) Demo.foo_off
              Demo.checkout saved_fs build_fs eq_refl eq_refl) as [_ E].
  exact E.
Defined.

Example apply_foo_off_launch :
  fst (apply (H := echoing) Demo.foo_off Demo.checkout) =
  Ok (jsonify [(cps "status", cps "success");
               (cps "output",
                Demo.lit "cmake" ++ Demo.lit "/home/dev/OmniRT" ++
                Demo.lit "-DFOO=OFF")]).
Proof. reflexivity. Qed.

(* ================================================================= *)
(** * Load after save *)

(** X18.  After a successful save, [load_saved_options] finds the
    settings file and returns exactly what [yaml.safe_load] makes of the
    text that [yaml.dump] produced for the saved mapping, or raises what
    the loader raises on it; whatever the file held before does not
    count, and the load changes nothing. *)
Theorem load_reads_what_save_wrote {H : Host}
    (opts : options) (f f1 : fs) (r : response) :
  save opts f = (Ok r, f1) ->
  fault (OpenRead config_path) f1 = None ->
  load_saved_options f1 =
  match yaml_safe_load (yaml_dump opts) with
  | Ok saved => (Ok saved, f1)
  | Raise e => (Raise e, f1)
  end.
Proof.
  intros Hs Hfault. apply load_after_save with (f := f); [|exact Hfault].
  unfold save in Hs. apply bind_ok in Hs as ([] & g & Hw & Hret).
  now injection Hret as _ <-.
Qed.

Lemma load_reads_what_save_wrote_example :
  load_saved_options (H := Demo.healthy)
    (snd (save (H := Demo.healthy) Demo.foo_off Demo.with_snapshot)) =
  (Ok (Some Demo.foo_off),
   snd (save (H := Demo.healthy) Demo.foo_off Demo.with_snapshot)).
Proof.
  apply (load_reads_what_save_wrote (H := Demo.healthy) Demo.foo_off
           Demo.with_snapshot
           (snd (save (H := Demo.healthy) Demo.foo_off Demo.with_snapshot))
           (jsonify [(cps "status", cps "success")])); reflexivity.
Defined.


(* ================================================================= *)
(** * Further properties of the handlers *)

(** ** What the file-system calls leave alone *)

Section FrameFacts.
Context {H : Host}.

Lemma created_refl (p : path) (f : fs) : created_dirs_only p f f.
Proof. intros q. now left. Qed.

Lemma created_trans (p : path) (f g h : fs) :
  created_dirs_only p f g -> created_dirs_only p g h ->
  created_dirs_only p f h.
Proof.
  intros Hfg Hgh q.
  destruct (Hfg q) as [E1|(N1 & D1 & L1)], (Hgh q) as [E2|(N2 & D2 & L2)].
  - left. congruence.
  - right. repeat split; [congruence | assumption | assumption].
  - right. repeat split; [assumption | congruence | assumption].
  - congruence.
Qed.

Lemma created_below (c : text) (p : path) (f g : fs) :
  created_dirs_only p f g -> created_dirs_only (c :: p) f g.
Proof.
  intros Hfg q. destruct (Hfg q) as [E|(N & D & l & L)]; [now left|].
  right. repeat split; try assumption. exists (c :: l). simpl. now rewrite L.
Qed.

(** Whatever was at a path before is there after. *)
Lemma created_keeps (p : path) (f g : fs) (q : path) (n : node) :
  created_dirs_only p f g -> f q = Some n -> g q = Some n.
Proof.
  intros Hfg Hq. destruct (Hfg q) as [E|(N & _)]; congruence.
Qed.

Lemma mkdir_raise (p : path) f e f' :
  mkdir p f = (Raise e, f') -> f' = f.
Proof.
  unfold mkdir, sys. destruct (fault (Mkdir p) f); [now intros [= _ <-]|].
  destruct (lookup f p); [now intros [= _ <-]|].
  destruct (lookup f (dirname p)) as [[|c]|]; intros [= <-]; congruence.
Qed.

Lemma mkdir_created (p : path) f r f' :
  mkdir p f = (r, f') -> created_dirs_only p f f'.
Proof.
  destruct r as [[]|e].
  - intros Hm. pose proof Hm as Hup. apply mkdir_ok in Hup. subst f'.
    intros q. destruct (path_eqb q p) eqn:E.
    + apply path_eqb_eq in E. subst q. right.
      unfold mkdir, sys in Hm.
      destruct (fault (Mkdir p) f); [discriminate|].
      destruct p as [|c p]; [discriminate|].
      destruct (lookup f (c :: p)) eqn:El; [discriminate|].
      repeat split.
      * exact El.
      * unfold update. now rewrite path_eqb_refl.
      * now exists [].
    + left. unfold update. now rewrite E.
  - intros Hm. apply mkdir_raise in Hm. subst. apply created_refl.
Qed.

Lemma makedirs_leaf_created (name : path) (exist_ok : bool) f r f' :
  makedirs_leaf name exist_ok f = (r, f') -> created_dirs_only name f f'.
Proof.
  unfold makedirs_leaf.
  destruct (mkdir name f) as [[[]|e] f2] eqn:E.
  - intros [= <- <-]. eapply mkdir_created; eauto.
  - apply mkdir_raise in E. subst f2.
    destruct (is_OSError e && exist_ok && is_dir f name);
      intros [= <- <-]; apply created_refl.
Qed.

(** [makedirs] makes directories at its path and above it, and leaves
    everything that exists as it is. *)
Lemma makedirs_created (name : path) (exist_ok : bool) f r f' :
  makedirs name exist_ok f = (r, f') -> created_dirs_only name f f'.
Proof.
  revert f r f'. induction name as [|c name IH]; intros f r f' Hm;
    rewrite makedirs_stages in Hm.
  - simpl in Hm. eapply makedirs_leaf_created; eauto.
  - assert (Hparents : forall r1 f1,
               makedirs_parents (c :: name) exist_ok f = (r1, f1) ->
               created_dirs_only (c :: name) f f1).
    { intros r1 f1. unfold makedirs_parents.
      destruct name as [|c' name]; [intros [= <- <-]; apply created_refl|].
      destruct (exists_ f (c' :: name));
        [intros [= <- <-]; apply created_refl|].
      destruct (makedirs (c' :: name) exist_ok f) as [[[]|e] f0] eqn:E;
        [|destruct (is_FileExistsError e)];
        intros [= <- <-]; apply created_below; eapply IH; eauto. }
    destruct (makedirs_parents (c :: name) exist_ok f) as [[[]|e] f1] eqn:E1.
    + eapply created_trans; [now apply (Hparents _ _ eq_refl)|].
      eapply makedirs_leaf_created; eauto.
    + injection Hm as <- <-. now apply (Hparents _ _ eq_refl).
Qed.

(** A [makedirs] that raises has not made the directory. *)
Lemma makedirs_raise_leaf (name : path) (exist_ok : bool) f e f' :
  makedirs name exist_ok f = (Raise e, f') -> f' name = f name.
Proof.
  rewrite makedirs_stages.
  destruct (makedirs_parents name exist_ok f) as [[[]|e1] f1] eqn:E1.
  - assert (Hsame : f1 name = f name).
    { unfold makedirs_parents in E1.
      destruct name as [|c [|c' name]]; try (now inversion E1).
      destruct (exists_ f (c' :: name)); [now inversion E1|].
      destruct (makedirs (c' :: name) exist_ok f) as [r0 f0] eqn:E.
      assert (f0 (c :: c' :: name) = f (c :: c' :: name)) as <-.
      { eapply makedirs_frame; [exact E|].
        intros l El. apply (f_equal (@List.length text)) in El.
        rewrite length_app in El. simpl in El. lia. }
      destruct r0 as [[]|e0]; [|destruct (is_FileExistsError e0)];
        now inversion E1. }
    unfold makedirs_leaf.
    destruct (mkdir name f1) as [[[]|e2] f2] eqn:E2; [discriminate|].
    apply mkdir_raise in E2. subst f2.
    destruct (is_OSError e2 && exist_ok && is_dir f1 name);
      [discriminate|]. now intros [= _ <-].
  - intros [= _ <-].
    unfold makedirs_parents in E1.
    destruct name as [|c [|c' name]]; try discriminate.
    destruct (exists_ f (c' :: name)); [discriminate|].
    destruct (makedirs (c' :: name) exist_ok f) as [r0 f0] eqn:E.
    assert (f0 (c :: c' :: name) = f (c :: c' :: name)) as <-.
    { eapply makedirs_frame; [exact E|].
      intros l El. apply (f_equal (@List.length text)) in El.
      rewrite length_app in El. simpl in El. lia. }
    destruct r0 as [[]|e0]; [discriminate|].
    destruct (is_FileExistsError e0); [discriminate|].
    now inversion E1.
Qed.

Lemma get_build_dir_created f r f' :
  get_build_dir f = (r, f') -> created_dirs_only build_dir_path f f'.
Proof.
  unfold get_build_dir, bind.
  destruct (makedirs build_dir_path true f) as [[[]|e] f1] eqn:E;
    intros [= _ <-]; eapply makedirs_created; eauto.
Qed.

End FrameFacts.


(** ** The build directory *)

(** X1.  Resolving the build directory only ever makes directories, at
    the build directory's path or above it: whatever [get_build_dir]
    returns or raises, every path holds afterwards what it held before,
    or held nothing and now holds such a directory.  Nothing is removed,
    no file is touched, the content of an existing build directory
    stays. *)
Theorem get_build_dir_only_creates {H : Host} (f : fs) :
  created_dirs_only build_dir_path f (snd (get_build_dir f)).
Proof.
  destruct (get_build_dir f) as [r f'] eqn:E. simpl.
  eapply get_build_dir_created; eauto.
Qed.

Lemma makedirs_existing {H : Host} (name : path) (f : fs) :
  is_dir f name = true ->
  exists_ f (dirname name) = true ->
  (forall e, fault (Mkdir name) f = Some e -> is_OSError e = true) ->
  makedirs name true f = (Ok tt, f).
Proof.
  intros Hdir Hparent Hfault. rewrite makedirs_stages.
  assert (Hp : makedirs_parents name true f = (Ok tt, f)).
  { unfold makedirs_parents. destruct name as [|c [|c' name]]; try reflexivity.
    simpl in Hparent. now rewrite Hparent. }
  rewrite Hp. unfold makedirs_leaf, mkdir, sys.
  destruct (fault (Mkdir name) f) as [e|] eqn:Ef.
  - now rewrite (Hfault e eq_refl), Hdir.
  - unfold is_dir in Hdir. destruct (lookup f name) as [[|c]|] eqn:El;
      try discriminate.
    simpl. unfold is_dir. now rewrite El.
Qed.

(** X2.  When the build directory and its parent are there,
    [get_build_dir] returns the path and changes nothing, also when the
    system refuses the [mkdir] with an [OSError]: calling it again is
    harmless. *)
Theorem get_build_dir_existing_untouched {H : Host} (f : fs) :
  is_dir f build_dir_path = true ->
  exists_ f (dirname build_dir_path) = true ->
  (forall e, fault (Mkdir build_dir_path) f = Some e -> is_OSError e = true) ->
  get_build_dir f = (Ok build_dir_path, f).
Proof.
  intros Hdir Hparent Hfault. unfold get_build_dir.
  now rewrite (bind_step _ _ _ _ _ _ _ (makedirs_existing _ _ Hdir Hparent Hfault)).
Qed.

Lemma get_build_dir_existing_untouched_example :
  get_build_dir (H := Demo.healthy) Demo.with_build_dir =
  (Ok Demo.the_build_dir, Demo.with_build_dir).
Proof.
  apply (get_build_dir_existing_untouched (H := Demo.healthy)
           Demo.with_build_dir).
  - reflexivity.
  - reflexivity.
  - intros e. simpl. discriminate.
Defined.

(** X3.  A regular file at the path of the build directory: [clean] does
    not answer with an error result, it raises [FileExistsError], the
    resolving of the directory standing outside its [try]; nothing is
    changed. *)
Theorem clean_raises_when_path_is_a_file {H : Host} (f : fs) (content : text) :
  lookup f build_dir_path = Some (File content) ->
  exists_ f (dirname build_dir_path) = true ->
  fault (Mkdir build_dir_path) f = None ->
  clean f = (Raise (os_error FileExistsError build_dir_path), f).
Proof.
  intros Hfile Hparent Hfault.
  assert (Hm : makedirs build_dir_path true f =
               (Raise (os_error FileExistsError build_dir_path), f)).
  { rewrite makedirs_stages.
    assert (Hp : makedirs_parents build_dir_path true f = (Ok tt, f)).
    { unfold makedirs_parents.
      destruct build_dir_path as [|c [|c' name]]; try reflexivity.
      simpl in Hparent. now rewrite Hparent. }
    rewrite Hp. unfold makedirs_leaf, mkdir, sys.
    rewrite Hfault, Hfile. simpl. unfold is_dir. now rewrite Hfile. }
  unfold clean, get_build_dir.
  now rewrite (bind_raise _ _ _ _ _ _ _
                 (bind_raise _ _ _ (fun _ => ret build_dir_path) _ _ _ Hm)).
Qed.

Lemma clean_raises_when_path_is_a_file_example :
  clean (H := Demo.healthy) blocked =
  (Raise (os_error FileExistsError Demo.the_build_dir), blocked).
Proof.
  apply (clean_raises_when_path_is_a_file (H := Demo.healthy) blocked
           (Demo.lit "x")); reflexivity.
Defined.

(** X4.  When [clean] succeeds, nothing outside the build directory is
    lost: every path that is not the build directory or below it holds
    what it held before. *)
Theorem clean_keeps_everything_outside {H : Host}
    (f f' : fs) (q : path) (n : node) :
  clean f = (Ok cleaned, f') ->
  within build_dir_path q = false ->
  f q = Some n -> f' q = Some n.
Proof.
  intros Hc Hout Hq.
  destruct (clean_resolves _ _ _ Hc) as [f1 Hbd].
  destruct (clean_cases _ _ Hbd)
    as [(f2 & f3 & Hrm & Hmk & E)|[(e & f2 & _ & E)|(e & f2 & f3 & _ & _ & E)]];
    rewrite E in Hc; try discriminate Hc.
  injection Hc as <-.
  apply (created_keeps build_dir_path f2 f3 q n);
    [eapply makedirs_created; eauto|].
  apply rmtree_ok in Hrm. subst f2. unfold remove_tree. rewrite Hout.
  apply (created_keeps build_dir_path f f1 q n);
    [eapply get_build_dir_created; eauto | exact Hq].
Qed.

Lemma clean_keeps_everything_outside_example :
  snd (clean (H := Demo.healthy) Demo.with_build_dir)
      (Demo.lit "CMakeLists.txt" :: Demo.project) =
  Some (File Demo.scenario_text).
Proof.
  apply (clean_keeps_everything_outside (H := Demo.healthy)
           Demo.with_build_dir); reflexivity.
Defined.

(** X5.  When the directory is removed and cannot be made again,
    [clean] answers with status error and the message, and the build
    directory is gone. *)
Theorem clean_failed_recreate_leaves_no_dir {H : Host}
    (f f1 f2 f3 : fs) (e : exn) :
  get_build_dir f = (Ok build_dir_path, f1) ->
  rmtree build_dir_path f1 = (Ok tt, f2) ->
  makedirs build_dir_path false f2 = (Raise e, f3) ->
  clean f = (Ok (not_cleaned e), f3) /\
  exists_ f3 build_dir_path = false.
Proof.
  intros Hbd Hrm Hmk. split.
  - destruct (clean_cases _ _ Hbd)
      as [(g2 & g3 & Hrm' & Hmk' & E)|[(e' & g2 & Hrm' & E)|(e' & g2 & g3 & Hrm' & Hmk' & E)]];
      rewrite Hrm in Hrm'; try discriminate Hrm';
      injection Hrm' as <-; rewrite Hmk in Hmk'; try discriminate Hmk'.
    now injection Hmk' as <- <-.
  - apply makedirs_raise_leaf in Hmk. apply rmtree_ok in Hrm. subst f2.
    assert (Hbelow : within build_dir_path build_dir_path = true)
      by exact (within_below build_dir_path []).
    unfold exists_, lookup.
    destruct build_dir_path as [|c p] eqn:Ebd; [discriminate Ebd|].
    rewrite Hmk. unfold remove_tree. now rewrite Hbelow.
Qed.

Lemma clean_failed_recreate_leaves_no_dir_example :
  clean (H := read_only_home) Demo.with_build_dir =
    (Ok (not_cleaned (H := read_only_home) denied),
     remove_tree Demo.the_build_dir Demo.with_build_dir) /\
  exists_ (remove_tree Demo.the_build_dir Demo.with_build_dir)
          Demo.the_build_dir = false.
Proof.
  apply (clean_failed_recreate_leaves_no_dir (H := read_only_home)
           Demo.with_build_dir Demo.with_build_dir
           (remove_tree Demo.the_build_dir Demo.with_build_dir)
           (remove_tree Demo.the_build_dir Demo.with_build_dir)
           denied); reflexivity.
Defined.


(** ** The configuration page *)

(** X6.  A page that [index] returns always reports the build directory
    as existing, under the one path, and [index] has written nothing: at
    most the build directory and directories above it are new. *)
Theorem index_reports_build_dir {U : Unicode} {H : Host}
    (f : fs) (shown : options) (status : build_status) (f' : fs) :
  index f = (Ok (render_template shown status), f') ->
  status = BuildStatus true build_dir_path /\
  created_dirs_only build_dir_path f f'.
Proof.
  intros Hi.
  apply index_ok in Hi as (content & saved & f2 & _ & Hload & Hbd & Hr).
  apply load_saved_options_fs in Hload. subst f2.
  pose proof (get_build_dir_ok _ _ _ Hbd) as (_ & Hdir & _).
  split; [|eapply get_build_dir_created; eauto].
  injection Hr as _ ->. f_equal.
  unfold exists_. unfold is_dir in Hdir.
  now destruct (lookup f' build_dir_path) as [[|c]|].
Qed.

Lemma index_reports_build_dir_example :
  let page := index (U := ascii_tables) (H := Demo.healthy) Demo.checkout in
  BuildStatus true Demo.the_build_dir =
    BuildStatus true (build_dir_path (H := Demo.healthy)) /\
  created_dirs_only (build_dir_path (H := Demo.healthy))
    Demo.checkout (snd page).
Proof.
  intros page.
  apply (index_reports_build_dir (U := ascii_tables) (H := Demo.healthy)
           Demo.checkout
           [expected_entry Demo.foo; expected_entry Demo.bar]
           (BuildStatus true Demo.the_build_dir) (snd page)).
  reflexivity.
Defined.

(** X7.  Without a settings file the page shows the scanner's result as
    it is, defaults and all. *)
Theorem index_without_snapshot_shows_defaults {U : Unicode} {H : Host}
    (f : fs) (shown : options) (status : build_status) (f' : fs) :
  index f = (Ok (render_template shown status), f') ->
  lookup f config_path = None ->
  exists content,
    read_file (join get_project_root (cps "CMakeLists.txt")) f = (Ok content, f) /\
    shown = scan_options content.
Proof.
  intros Hi Hnone.
  apply index_ok in Hi as (content & saved & f2 & Hread & Hload & _ & Hr).
  exists content. split; [exact Hread|].
  unfold load_saved_options, bind, os_path_exists, exists_ in Hload.
  rewrite Hnone in Hload. injection Hload as <- _.
  now injection Hr as ->.
Qed.

Lemma index_without_snapshot_shows_defaults_example :
  exists content,
    read_file (H := Demo.healthy)
      (join (get_project_root (H := Demo.healthy)) (cps "CMakeLists.txt"))
      Demo.checkout = (Ok content, Demo.checkout) /\
    [expected_entry Demo.foo; expected_entry Demo.bar] =
    scan_options (U := ascii_tables) content.
Proof.
  apply (index_without_snapshot_shows_defaults (U := ascii_tables)
           (H := Demo.healthy) Demo.checkout
           [expected_entry Demo.foo; expected_entry Demo.bar]
           (BuildStatus true Demo.the_build_dir)
           (snd (index (U := ascii_tables) (H := Demo.healthy) Demo.checkout)));
    reflexivity.
Defined.

(** X8.  Without a CMakeLists.txt, [index] raises [FileNotFoundError]
    for its path and leaves the file system as it is: the build directory
    is not made. *)
Theorem index_raises_without_cmakelists {U : Unicode} {H : Host} (f : fs) :
  lookup f (join get_project_root (cps "CMakeLists.txt")) = None ->
  fault (OpenRead (join get_project_root (cps "CMakeLists.txt"))) f = None ->
  index f =
  (Raise (os_error FileNotFoundError
            (join get_project_root (cps "CMakeLists.txt"))), f).
Proof.
  intros Hnone Hfault. unfold index, read_cmake_options.
  apply bind_raise. apply bind_raise.
  unfold read_file, sys. now rewrite Hfault, Hnone.
Qed.

Lemma index_raises_without_cmakelists_example :
  index (U := ascii_tables) (H := Demo.healthy) Demo.nothing =
  (Raise (os_error FileNotFoundError
            (Demo.lit "CMakeLists.txt" :: Demo.project)), Demo.nothing).
Proof.
  apply (index_raises_without_cmakelists (U := ascii_tables)
           (H := Demo.healthy) Demo.nothing); reflexivity.
Defined.

(** X9.  A settings file that the YAML loader rejects makes [index]
    raise the loader's exception: the page is not rendered with the
    defaults instead, and the build directory is not made. *)
Theorem index_raises_on_rejected_snapshot {U : Unicode} {H : Host}
    (f : fs) (content stored : text) (e : exn) :
  read_file (join get_project_root (cps "CMakeLists.txt")) f = (Ok content, f) ->
  lookup f config_path = Some (File stored) ->
  fault (OpenRead config_path) f = None ->
  yaml_safe_load stored = Raise e ->
  index f = (Raise e, f).
Proof.
  intros Hread Hfile Hfault Hyaml. unfold index.
  assert (Hopts : read_cmake_options f = (Ok (scan_options content), f)).
  { unfold read_cmake_options. now rewrite (bind_step _ _ _ _ _ _ _ Hread). }
  rewrite (bind_step _ _ _ _ _ _ _ Hopts). apply bind_raise.
  assert (Hex : os_path_exists config_path f = (Ok true, f))
    by (unfold os_path_exists, exists_; now rewrite Hfile).
  assert (Hstored : read_file config_path f = (Ok stored, f))
    by (unfold read_file, sys; now rewrite Hfault, Hfile).
  unfold load_saved_options.
  rewrite (bind_step _ _ _ _ _ _ _ Hex), (bind_step _ _ _ _ _ _ _ Hstored).
  now rewrite Hyaml.
Qed.

Lemma index_raises_on_rejected_snapshot_example :
  index (U := ascii_tables) (H := unparsable) Demo.with_snapshot =
  (Raise yaml_error, Demo.with_snapshot).
Proof.
  apply (index_raises_on_rejected_snapshot (U := ascii_tables)
           (H := unparsable) Demo.with_snapshot Demo.scenario_text
           (Demo.dump_lines Demo.foo_renamed)); reflexivity.
Defined.

(** ** The settings store *)

(** X10.  A save overwrites the settings file as a whole and touches
    nothing else: after two saves the file holds the dump of the second
    mapping, and every other path holds what it held before the first. *)
Theorem save_twice_keeps_last {H : Host}
    (a b : options) (f f1 f2 : fs) (r1 r2 : response) :
  save a f = (Ok r1, f1) ->
  save b f1 = (Ok r2, f2) ->
  lookup f2 config_path = Some (File (yaml_dump b)) /\
  forall q, q <> config_path -> f2 q = f q.
Proof.
  intros H1 H2. apply save_ok in H1 as [_ ->]. apply save_ok in H2 as [_ ->].
  split.
  - apply lookup_written. discriminate.
  - intros q Hq. now rewrite !update_other by exact Hq.
Qed.

Lemma save_twice_keeps_last_example :
  lookup (snd (save (H := Demo.healthy) bar_on
                 (snd (save (H := Demo.healthy) Demo.foo_off Demo.checkout))))
         (config_path (H := Demo.healthy)) =
    Some (File (Demo.dump_lines bar_on)) /\
  forall q, q <> config_path (H := Demo.healthy) ->
    snd (save (H := Demo.healthy) bar_on
           (snd (save (H := Demo.healthy) Demo.foo_off Demo.checkout))) q =
    Demo.checkout q.
Proof.
  apply (save_twice_keeps_last (H := Demo.healthy) Demo.foo_off bar_on
           Demo.checkout
           (snd (save (H := Demo.healthy) Demo.foo_off Demo.checkout))
           (snd (save (H := Demo.healthy) bar_on
                   (snd (save (H := Demo.healthy) Demo.foo_off Demo.checkout))))
           (jsonify [(cps "status", cps "success")])
           (jsonify [(cps "status", cps "success")])); reflexivity.
Defined.

Lemma save_store_ok {H : Host} (opts : options) f r f1 :
  save opts f = (Ok r, f1) -> save_cmake_options opts f = (Ok tt, f1).
Proof.
  unfold save. intros Hs. apply bind_ok in Hs as ([] & g & Hw & Hret).
  now injection Hret as _ <-.
Qed.

(** X11.  What was saved shows on the next page: after a save of a
    mapping that the YAML library reads back as an equivalent mapping,
    every option that [index] finds in the CMakeLists.txt is shown with
    its own description and, if the mapping has the identifier, with the
    saved value. *)
Theorem saved_values_show_on_next_page {U : Unicode} {H : Host}
    (opts reread : options) (f f1 f2 : fs) (r : response)
    (shown : options) (status : build_status) :
  yaml_safe_load (yaml_dump opts) = Ok (Some reread) ->
  equivalent reread opts ->
  save opts f = (Ok r, f1) ->
  fault (OpenRead config_path) f1 = None ->
  index f1 = (Ok (render_template shown status), f2) ->
  exists content,
    read_file (join get_project_root (cps "CMakeLists.txt")) f1 = (Ok content, f1) /\
    forall k e, Dict.get k (scan_options content) = Some e ->
                Dict.get k shown = Some (overridden e (Dict.get k opts)).
Proof.
  intros Hyaml Heq Hsave Hfault Hi.
  apply save_store_ok in Hsave.
  pose proof (load_after_save opts f f1 Hsave Hfault) as Hload.
  rewrite Hyaml in Hload.
  apply index_ok in Hi as (content & saved & g & Hread & Hload' & _ & Hr).
  rewrite Hload in Hload'. injection Hload' as <- _.
  assert (Hshown : shown = displayed (scan_options content) (Some reread))
    by (now injection Hr).
  subst shown.
  exists content. split; [exact Hread|].
  intros k e He.
  rewrite displayed_map by (apply loop_NoDup; constructor).
  unfold shown_pair.
  rewrite (get_map_values _ _ (shown_entry (Some reread))), He. simpl.
  unfold shown_entry, snapshot_get. now rewrite (Heq k).
Qed.

Lemma saved_values_show_on_next_page_example :
  let saved_fs := snd (save (H := Demo.healthy) foo_bar Demo.checkout) in
  exists content,
    read_file (H := Demo.healthy)
      (join (get_project_root (H := Demo.healthy)) (cps "CMakeLists.txt"))
      saved_fs = (Ok content, saved_fs) /\
    forall k e,
      Dict.get k (scan_options (U := ascii_tables) content) = Some e ->
      Dict.get k foo_bar = Some (overridden e (Dict.get k foo_bar)).
Proof.
  intros saved_fs.
  apply (saved_values_show_on_next_page (U := ascii_tables) (H := Demo.healthy)
           foo_bar foo_bar Demo.checkout saved_fs
           (snd (index (U := ascii_tables) (H := Demo.healthy) saved_fs))
           (jsonify [(cps "status", cps "success")])
           foo_bar (BuildStatus true Demo.the_build_dir)).
  - reflexivity.
  - intros k. reflexivity.
  - reflexivity.
  - reflexivity.
  - reflexivity.
Defined.


Lemma get_of_member (V : Type) (d : Dict.dict V) (k : text) (v : V) :
  NoDup (Dict.keys d) -> In (k, v) d -> Dict.get k d = Some v.
Proof.
  induction d as [|[k' v'] d IH]; simpl; [contradiction|].
  intros Hnd [E|Hin].
  - injection E as -> ->. now rewrite text_eqb_refl.
  - apply NoDup_cons_iff in Hnd as [Hk Hnd].
    destruct (text_eqb k k') eqn:E.
    + apply text_eqb_eq in E. subst k'. exfalso. apply Hk.
      apply (in_map fst) in Hin. exact Hin.
    + now apply IH.
Qed.

(** X12.  Saving exactly what the page shows changes nothing on the
    next page: merged with a snapshot equivalent to the displayed
    mapping, the scanner's output is displayed as before. *)
Theorem redisplay_after_saving_page
    (opts : options) (saved : option options) (reread : options) :
  NoDup (Dict.keys opts) ->
  equivalent reread (displayed opts saved) ->
  displayed opts (Some reread) = displayed opts saved.
Proof.
  intros Hnd Heq. rewrite (displayed_map opts (Some reread)) by exact Hnd.
  assert (Hshown : displayed opts saved = map (shown_pair saved) opts)
    by (now apply displayed_map).
  rewrite Hshown in *. apply map_ext_in. intros [k e] Hin.
  unfold shown_pair, shown_entry at 1, snapshot_get. simpl.
  rewrite (Heq k). unfold shown_pair.
  rewrite (get_map_values _ _ (shown_entry saved)).
  rewrite (get_of_member _ _ _ _ Hnd Hin). simpl.
  unfold shown_entry. destruct e. now destruct (snapshot_get k saved).
Qed.

Lemma redisplay_after_saving_page_example :
  displayed Demo.ab_scanned
    (Some (displayed Demo.ab_scanned (Some Demo.a_saved))) =
  displayed Demo.ab_scanned (Some Demo.a_saved).
Proof.
  apply (redisplay_after_saving_page Demo.ab_scanned (Some Demo.a_saved)).
  - repeat constructor; simpl; intuition discriminate.
  - intros k. reflexivity.
Defined.

(** ** Configure *)

(** X13.  When [apply] returns, [cmake] was launched, or its launch
    attempted, in a file system in which the settings file already holds
    the dump of the submitted mapping and the build directory exists;
    what [apply] leaves behind is what the child left, or that very file
    system when the child could not be started. *)
Theorem apply_launches_after_save {H : Host}
    (opts : options) (f : fs) (r : response) (f' : fs) :
  apply opts f = (Ok r, f') ->
  exists f1 f2,
    save_cmake_options opts f = (Ok tt, f1) /\
    get_build_dir f1 = (Ok build_dir_path, f2) /\
    lookup f2 config_path = Some (File (yaml_dump opts)) /\
    is_dir f2 build_dir_path = true /\
    match popen (cmake_cmd get_project_root opts) build_dir_path f2 with
    | Ok p => f' = fs_after p
    | Raise _ => f' = f2
    end.
Proof.
  intros Ha. destruct (apply_ok _ _ _ _ Ha) as (f1 & f2 & Hs & Hbd).
  rewrite (apply_outcome _ _ _ _ Hs Hbd) in Ha.
  exists f1, f2. split; [exact Hs|]. split; [exact Hbd|]. split; [|split].
  - unfold save_cmake_options in Hs. apply write_file_ok in Hs as [Hne ->].
    assert (Hw : update config_path (Some (File (yaml_dump opts))) f config_path
                 = Some (File (yaml_dump opts)))
      by (unfold update; now rewrite path_eqb_refl).
    apply (created_keeps _ _ _ _ _ (get_build_dir_created _ _ _ Hbd)) in Hw.
    unfold lookup. now destruct config_path.
  - now apply get_build_dir_ok in Hbd.
  - destruct (popen (cmake_cmd get_project_root opts) build_dir_path f2);
      now injection Ha as _ <-.
Qed.

Lemma apply_launches_after_save_example :
  let left := snd (apply (H := Demo.without_cmake) Demo.foo_off Demo.checkout) in
  lookup left (config_path (H := Demo.without_cmake)) =
    Some (File (Demo.dump_lines Demo.foo_off)) /\
  is_dir left (build_dir_path (H := Demo.without_cmake)) = true.
Proof.
  intros left.
  destruct (apply_launches_after_save (H := Demo.without_cmake)
              Demo.foo_off Demo.checkout
              (jsonify [(cps "status", cps "error");
                        (cps "output",
                         Demo.lit "No such file or directory: cmake")])
              left eq_refl)
    as (f1 & f2 & _ & _ & Hfile & Hdir & Hleft).
  simpl in Hleft. subst f2. split; assumption.
Defined.

(** X14.  The answer of [apply] tells how the child ended: status
    success exactly when [cmake] was started and exited with 0, and then,
    as for any other exit status, the output is all the lines of the
    child in one text; when the child could not be started, status error
    and the message of the exception. *)
Theorem apply_status_reflects_exit {H : Host}
    (opts : options) (f : fs) (r : response) (f' : fs) :
  apply opts f = (Ok r, f') ->
  exists f1 f2,
    save_cmake_options opts f = (Ok tt, f1) /\
    get_build_dir f1 = (Ok build_dir_path, f2) /\
    match popen (cmake_cmd get_project_root opts) build_dir_path f2 with
    | Ok p =>
        (exists status,
            r = jsonify [(cps "status", status);
                         (cps "output", List.concat (stdout p))]) /\
        (reports_success r = true <-> returncode p = 0%Z)
    | Raise e =>
        r = jsonify [(cps "status", cps "error"); (cps "output", exn_str e)]
    end.
Proof.
  intros Ha. destruct (apply_ok _ _ _ _ Ha) as (f1 & f2 & Hs & Hbd).
  rewrite (apply_outcome _ _ _ _ Hs Hbd) in Ha.
  exists f1, f2. split; [exact Hs|]. split; [exact Hbd|].
  destruct (popen (cmake_cmd get_project_root opts) build_dir_path f2)
    as [p|e]; injection Ha as <- _; [|reflexivity].
  split; [eexists; reflexivity|].
  destruct (Z.eqb_spec (returncode p) 0) as [E|E]; simpl.
  - tauto.
  - split; [discriminate | contradiction].
Qed.

Lemma apply_status_reflects_exit_example :
  let r := jsonify [(cps "status", cps "error");
                    (cps "output",
                     Demo.lit "-- Configuring done" ++ [newline] ++
                     Demo.lit "-- Generating done" ++ [newline])] in
  exists f1 f2,
    save_cmake_options (H := Demo.failing_build) Demo.foo_off Demo.checkout =
      (Ok tt, f1) /\
    get_build_dir (H := Demo.failing_build) f1 =
      (Ok (build_dir_path (H := Demo.failing_build)), f2) /\
    match @popen Demo.failing_build
            (cmake_cmd (H := Demo.failing_build)
               (get_project_root (H := Demo.failing_build)) Demo.foo_off)
            (build_dir_path (H := Demo.failing_build)) f2 with
    | Ok p =>
        (exists status,
            r = jsonify [(cps "status", status);
                         (cps "output", List.concat (stdout p))]) /\
        (reports_success r = true <-> returncode p = 0%Z)
    | Raise e =>
        r = jsonify [(cps "status", cps "error");
                     (cps "output", @exn_str Demo.failing_build e)]
    end.
Proof.
  intros r.
  exact (apply_status_reflects_exit (H := Demo.failing_build)
           Demo.foo_off Demo.checkout r
           (snd (apply (H := Demo.failing_build) Demo.foo_off Demo.checkout))
           eq_refl).
Defined.


(** The flag of an option tells which option it is and what its value
    is. *)
Lemma define_flag_injective (k1 k2 : text) (e1 e2 : option_entry) :
  define_flag k1 e1 = define_flag k2 e2 -> k1 = k2 /\ value e1 = value e2.
Proof.
  unfold define_flag. intros E. apply app_inv_head in E.
  destruct (value e1), (value e2).
  - apply app_inv_tail in E. auto.
  - exfalso. apply (f_equal (@rev char)) in E.
    rewrite !rev_app_distr in E. simpl in E. discriminate E.
  - exfalso. apply (f_equal (@rev char)) in E.
    rewrite !rev_app_distr in E. simpl in E. discriminate E.
  - apply app_inv_tail in E. auto.
Qed.

(** X15.  [apply] passes no definition twice: after [cmake] and the
    project path the command has one flag per option of the mapping, and
    for a mapping whose identifiers are all different the flags are all
    different. *)
Theorem apply_flags_distinct {H : Host} (project_dir : path) (opts : options) :
  NoDup (Dict.keys opts) ->
  List.length (cmake_cmd project_dir opts) = 2 + List.length opts /\
  NoDup (skipn 2 (cmake_cmd project_dir opts)).
Proof.
  intros Hnd. unfold cmake_cmd.
  rewrite (fold_append_map _ _ (fun kv => define_flag (fst kv) (snd kv))).
  split; [simpl; now rewrite length_map|]. simpl.
  induction opts as [|[k e] opts IH]; simpl; [constructor|].
  apply NoDup_cons_iff in Hnd as [Hk Hnd]. constructor; [|now apply IH].
  intros Hin. apply in_map_iff in Hin as [[k' e'] [E Hin]]. simpl in E.
  apply define_flag_injective in E as [-> _].
  apply Hk. apply (in_map fst) in Hin. exact Hin.
Qed.

Lemma apply_flags_distinct_example :
  List.length (cmake_cmd (H := Demo.healthy) Demo.project foo_bar) = 4 /\
  NoDup (skipn 2 (cmake_cmd (H := Demo.healthy) Demo.project foo_bar)).
Proof.
  apply (apply_flags_distinct (H := Demo.healthy) Demo.project foo_bar).
  repeat constructor; simpl; intuition discriminate.
Defined.

(** X16.  Every entry that the scanner returns stands under a non-empty
    identifier made of word characters only, and has a non-empty
    description without a double quote. *)
Theorem scanned_entries_are_tokens {U : Unicode}
    (content : text) (k : text) (e : option_entry) :
  Dict.get k (scan_options content) = Some e ->
  run is_word k = true /\ run not_dquote (description e) = true.
Proof.
  unfold scan_options. rewrite loop_get.
  destruct (last_match k (finditer content)) as [g|] eqn:Eg; [|discriminate].
  intros [= <-]. apply last_match_some in Eg as [Hin <-].
  apply finditer_sound in Hin as (before & g1 & g2 & rest & Hwf & _).
  unfold well_formed in Hwf. simpl in Hwf.
  repeat (apply andb_true_iff in Hwf; destruct Hwf as [Hwf ?]).
  now split.
Qed.

Lemma scanned_entries_are_tokens_example :
  run (is_word (U := ascii_tables)) (Demo.lit "FOO") = true /\
  run not_dquote (Demo.lit "enable foo") = true.
Proof.
  apply (scanned_entries_are_tokens (U := ascii_tables) Demo.scenario_text
           (Demo.lit "FOO") (Entry (Demo.lit "enable foo") true)).
  reflexivity.
Defined.


(** ** Build *)

(** X17.  A stream of [build] that has run to its end is the output of
    the child that [popen] started with [cmake --build . --parallel] in
    the build directory, followed by the sentinel for that child's exit
    status and by nothing else; the file system is the one that child
    left, with the build directory in place when the child leaves its
    working directory where it is. *)
Theorem build_stream_is_the_childs {H : Host}
    (f : fs) (yielded : list text) (f' : fs) :
  generate f = (Stream yielded None, f') ->
  exists f1 p,
    get_build_dir f = (Ok build_dir_path, f1) /\
    popen build_cmd build_dir_path f1 = Ok p /\
    yielded =
      stdout p ++
      [if (returncode p =? 0)%Z then success_sentinel else failure_sentinel] /\
    f' = fs_after p /\
    (child_keeps_cwd -> is_dir f' build_dir_path = true).
Proof.
  unfold generate.
  destruct (get_build_dir f) as [[bd|e] f1] eqn:Hbd; [|discriminate].
  pose proof (get_build_dir_ok _ _ _ Hbd) as (-> & Hdir & _).
  unfold run_process.
  destruct (popen build_cmd build_dir_path f1) as [p|e] eqn:Hp;
    [|discriminate].
  intros [= <- <-]. exists f1, p. repeat split; try assumption.
  intros Hkeep. eapply Hkeep; eauto.
Qed.

Lemma build_stream_is_the_childs_example :
  exists f1 p,
    get_build_dir (H := Demo.failing_build) Demo.checkout =
      (Ok (build_dir_path (H := Demo.failing_build)), f1) /\
    @popen Demo.failing_build build_cmd
      (build_dir_path (H := Demo.failing_build)) f1 = Ok p /\
    returncode p = 2%Z /\
    [Demo.lit "-- Configuring done" ++ [newline];
     Demo.lit "-- Generating done" ++ [newline];
     failure_sentinel] =
    stdout p ++
    [if (returncode p =? 0)%Z then success_sentinel else failure_sentinel].
Proof.
  destruct (build_stream_is_the_childs (H := Demo.failing_build) Demo.checkout
              [Demo.lit "-- Configuring done" ++ [newline];
               Demo.lit "-- Generating done" ++ [newline];
               failure_sentinel]
              (snd (generate (H := Demo.failing_build) Demo.checkout))
              eq_refl) as (f1 & p & Hbd & Hp & Hy & _).
  exists f1, p. split; [exact Hbd|]. split; [exact Hp|]. split; [|exact Hy].
  vm_compute in Hbd. injection Hbd as <-.
  vm_compute in Hp. now injection Hp as <-.
Defined.
